(** * uvw: the stream layer ([src/uvw/stream.hpp])

    A shallow embedding of [uvw::Stream<T>] and of the two requests it
    issues, [details::Write] and [details::Shutdown], together with the
    properties of the event translation and of buffer ownership.

    The C++ code mutates objects that live on the heap and are reached
    through [shared_ptr]/[weak_ptr]; the embedding threads an explicit
    [World] through a small state monad.  Objects are identified by the
    serial number of their allocation, which is never reused, so that a
    [weak_ptr] is an identity whose [lock()] is a lookup among the live
    objects.  What the native layer answers (the return value of
    [uv_write], [uv_shutdown], [uv_try_write], the status of a completion)
    is an argument of the function that asks.

    [listen], [read], [stop], [readable] and [writable] only hand their
    arguments to the native layer and are left out. *)

From Stdlib Require Import ZArith String.
From stdpp Require Import gmap list.

Local Open Scope Z_scope.

(** ** Native layer ([<uv.h>], [<arpa/inet.h>]) *)

(** Identity of a heap object (stream, request, loop). *)
Abbreviation addr := nat.

(** Address of a [char[]] block ([uv_buf_t::base]). *)
Abbreviation buffer := nat.

Module Uv.

(** [UV_EOF] as libuv defines it ([UV__EOF] in [uv-errno.h]). *)
Definition UV_EOF : Z := -4095.

(** [uv_buf_t]: [base] may be the null pointer. *)
Record uv_buf_t := mk_buf { base : option buffer; len : Z }.

(** [uv_buf_init(char*, unsigned int)]: the length is converted to
    [unsigned int]. *)
Definition uv_buf_init (b : option buffer) (length : Z) : uv_buf_t :=
  mk_buf b (length mod 2 ^ 32).

(** An asynchronous native operation accepted by the loop, as
    [uv_write] and [uv_shutdown] record it until its completion. *)
Inductive op :=
| uv_write (handle : addr) (bufs : list uv_buf_t)
| uv_shutdown (handle : addr).

(** [sockaddr_in] as far as [Stream::address] reads it: the port is kept as
    its two bytes in memory, in network order. *)
Record sockaddr := mk_sockaddr { sin_port : Z * Z }.

(** [ntohs]: the value of two bytes in network order. *)
Definition ntohs (p : Z * Z) : Z := (p.1 mod 256) * 256 + p.2 mod 256.

End Uv.

(** ** Events ([event.hpp]) *)

(** Modelled from the spec: the event records of [event.hpp], which is not
    part of the sources at hand.  DataEvent owns a byte buffer and its
    length, ErrorEvent carries a status code (kept as the integer it is
    built from), the others have no payload. *)
Inductive Event :=
| EndEvent
| DataEvent (data : option buffer) (length : Z)
| ErrorEvent (code : Z)
| WriteEvent
| ShutdownEvent
| ListenEvent.

(** The static type of an event, by which listeners are registered
    ([once<E>]). *)
Inductive EventKind := KEnd | KData | KError | KWrite | KShutdown | KListen.

Definition kind_of (e : Event) : EventKind :=
  match e with
  | EndEvent => KEnd
  | DataEvent _ _ => KData
  | ErrorEvent _ => KError
  | WriteEvent => KWrite
  | ShutdownEvent => KShutdown
  | ListenEvent => KListen
  end.

#[global] Instance Event_eq_dec : EqDecision Event.
Proof. solve_decision. Defined.

#[global] Instance EventKind_eq_dec : EqDecision EventKind.
Proof. solve_decision. Defined.

(** The buffer an event owns, if any. *)
Definition owned_by (e : Event) : option buffer :=
  match e with
  | DataEvent d _ => d
  | _ => None
  end.

(** ** The world: live objects, the loop's queue, the observable logs *)

(** The closure that [Stream::write] and [Stream::shutdown] build:
    [[weak](const auto &event, Request &) { ... }].  Its only capture is
    the weak reference to the stream. *)
Inductive Listener := Relay (weak : addr).

Inductive RequestType := WriteReq | ShutdownReq.

(** A live stream: the loop it belongs to. *)
Record StreamObj := mk_stream { s_loop : addr }.

(** A live request: its type, its loop and its one-shot listeners in the
    order of registration. *)
Record RequestObj := mk_request {
  r_type : RequestType;
  r_loop : addr;
  r_once : list (EventKind * Listener)
}.

Record World := mk_world {
  next : addr;                         (* serial number of the next object *)
  streams : gmap addr StreamObj;       (* streams some shared_ptr still owns *)
  requests : gmap addr RequestObj;     (* requests some shared_ptr still owns *)
  pending : list (addr * Uv.op);       (* native operations awaiting completion *)
  published : list (addr * Event);     (* every publish call: on which object, what *)
  freed : list buffer                 (* every delete[] of a buffer *)
}.

Definition set_next (n : addr) (w : World) : World :=
  mk_world n (streams w) (requests w) (pending w) (published w) (freed w).
Definition set_streams (s : gmap addr StreamObj) (w : World) : World :=
  mk_world (next w) s (requests w) (pending w) (published w) (freed w).
Definition set_requests (r : gmap addr RequestObj) (w : World) : World :=
  mk_world (next w) (streams w) r (pending w) (published w) (freed w).
Definition set_pending (p : list (addr * Uv.op)) (w : World) : World :=
  mk_world (next w) (streams w) (requests w) p (published w) (freed w).
Definition set_published (p : list (addr * Event)) (w : World) : World :=
  mk_world (next w) (streams w) (requests w) (pending w) p (freed w).
Definition set_freed (f : list buffer) (w : World) : World :=
  mk_world (next w) (streams w) (requests w) (pending w) (published w) f.

(** ** The monad of the embedding: state, and [None] for a thrown exception *)

Definition M (A : Type) : Type := World -> option (A * World).

Definition ret {A} (a : A) : M A := fun w => Some (a, w).

Definition bind {A B} (m : M A) (k : A -> M B) : M B :=
  fun w => match m w with
           | Some (a, w') => k a w'
           | None => None
           end.

Definition throw {A} : M A := fun _ => None.

Definition gets {A} (f : World -> A) : M A := fun w => Some (f w, w).

Definition modify (f : World -> World) : M unit := fun w => Some (tt, f w).

Notation "'do' x <- c1 ; c2" := (bind c1 (fun x => c2))
  (at level 10, x name, c1 at level 100, c2 at level 200).

(** Each action of a list in turn. *)
Fixpoint for_each {A} (f : A -> M unit) (l : list A) : M unit :=
  match l with
  | [] => ret tt
  | a :: l' => do _ <- f a; for_each f l'
  end.

(** ** Memory and shared ownership *)

(** [~unique_ptr<char[]>]: [delete[]] of the block, unless the pointer is
    null (which includes: has been moved from). *)
Definition unique_ptr_dtor (p : option buffer) : M unit :=
  match p with
  | Some b => modify (fun w => set_freed (freed w ++ [b]) w)
  | None => ret tt
  end.

(** [weak_ptr<T>::lock()] on a weak reference to a stream. *)
Definition lock (weak : addr) : M (option addr) :=
  gets (fun w => match streams w !! weak with
                 | Some _ => Some weak
                 | None => None
                 end).

(** [enable_shared_from_this<T>::shared_from_this()]: throws
    [std::bad_weak_ptr] when no [shared_ptr] owns the object. *)
Definition shared_from_this (this : addr) : M addr :=
  do p <- lock this;
  match p with
  | Some p => ret p
  | None => throw
  end.

(** The last [shared_ptr] to a stream is released. *)
Definition destroy (s : addr) : M unit :=
  modify (fun w => set_streams (delete s (streams w)) w).

(** ** Collaborators that [stream.hpp] includes *)

Module Loop.

(** Modelled from the spec: [loop.resource<Kind>(args...)] of [loop.hpp]
    produces a new owning reference to a Request or Stream bound to that
    loop. *)
Definition resource_stream (loop : addr) : M addr :=
  do a <- gets next;
  do _ <- modify (fun w =>
            set_next (S a) (set_streams (<[a := mk_stream loop]> (streams w)) w));
  ret a.

Definition resource_request (t : RequestType) (loop : addr) : M addr :=
  do a <- gets next;
  do _ <- modify (fun w =>
            set_next (S a)
              (set_requests (<[a := mk_request t loop []]> (requests w)) w));
  ret a.

End Loop.

Module Handle.

(** Modelled from the spec: [publish(event)] of the publish/subscribe
    mechanism ([emitter.hpp]), on a stream.  The listeners of a stream are
    its owner's; the call is recorded. *)
Definition publish (this : addr) (event : Event) : M unit :=
  modify (fun w => set_published (published w ++ [(this, event)]) w).

(** [this->loop()]. *)
Definition loop (this : addr) : M addr :=
  do o <- gets (fun w => streams w !! this);
  match o with
  | Some o => ret (s_loop o)
  | None => throw
  end.

End Handle.

(** The body of the closure [Relay weak] (stream.hpp, lines 117-120 and
    148-151):
    [auto ptr = weak.lock(); if(ptr) { ptr->publish(event); }]. *)
Definition listener (weak : addr) (event : Event) : M unit :=
  do ptr <- lock weak;
  match ptr with
  | Some ptr => Handle.publish ptr event
  | None => ret tt
  end.

Definition call (l : Listener) (event : Event) : M unit :=
  match l with
  | Relay weak => listener weak event
  end.

Module Request.

Definition set_once (l : list (EventKind * Listener)) (o : RequestObj) : RequestObj :=
  mk_request (r_type o) (r_loop o) l.

(** Modelled from the spec: [once<EventKind>(listener)] of [emitter.hpp]
    registers a one-shot listener for one kind of event. *)
Definition once (k : EventKind) (l : Listener) (this : addr) : M unit :=
  modify (fun w =>
    set_requests (alter (fun o => set_once (r_once o ++ [(k, l)]) o) this (requests w)) w).

(** Modelled from the spec: [publish(event)] of [emitter.hpp], on a request.
    The call is recorded; the one-shot listeners registered for the kind of
    the event are taken off the registry and called in the order of their
    registration. *)
Definition publish (this : addr) (event : Event) : M unit :=
  do _ <- modify (fun w => set_published (published w ++ [(this, event)]) w);
  do o <- gets (fun w => requests w !! this);
  match o with
  | None => ret tt
  | Some o =>
      let due := filter (fun kl => kl.1 = kind_of event) (r_once o) in
      let rest := filter (fun kl => kl.1 <> kind_of event) (r_once o) in
      do _ <- modify (fun w =>
                set_requests (<[this := set_once rest o]> (requests w)) w);
      for_each (fun kl => call kl.2 event) due
  end.

(** The success event of a native operation. *)
Definition success (o : Uv.op) : Event :=
  match o with
  | Uv.uv_write _ _ => WriteEvent
  | Uv.uv_shutdown _ => ShutdownEvent
  end.

(** Modelled from the spec: the completion callback of [request.hpp].
    status == 0: publish the success event to the request's own listeners;
    status != 0: publish an ErrorEvent carrying the native status code. *)
Definition defaultCallback (E : Event) (req : addr) (status : Z) : M unit :=
  if decide (status = 0) then publish req E
  else publish req (ErrorEvent status).

(** Modelled from the spec: [exec] of [request.hpp] issues exactly one native
    asynchronous call, registering the request's completion callback; if
    the native call itself fails synchronously ([rc] nonzero), the request
    publishes ErrorEvent immediately instead of registering a pending
    completion. *)
Definition exec (rc : Z) (o : Uv.op) (this : addr) : M unit :=
  if decide (rc = 0) then
    modify (fun w => set_pending (pending w ++ [(this, o)]) w)
  else publish this (ErrorEvent rc).

End Request.

(** Modelled from the spec: the loop reports the completion of the native
    operation of [req] with [status].  A request completes at most once:
    its entry leaves the queue, and a request that is not queued has no
    completion. *)
Definition complete (req : addr) (status : Z) : M unit :=
  do q <- gets pending;
  match list_find (fun e => e.1 = req) q with
  | Some (i, (_, o)) =>
      do _ <- modify (set_pending (delete i q));
      Request.defaultCallback (Request.success o) req status
  | None => ret tt
  end.

(** ** [namespace details]: the two requests (stream.hpp, lines 21-52) *)

Module Shutdown.

(** [Shutdown::create], reached through [loop.resource<details::Shutdown>()]. *)
Definition create (loop : addr) : M addr :=
  Loop.resource_request ShutdownReq loop.

(** [exec<uv_shutdown_t, ShutdownEvent>(&uv_shutdown, get<uv_shutdown_t>(), handle)];
    [rc] is what the native [uv_shutdown] returns. *)
Definition shutdown (rc : Z) (this handle : addr) : M unit :=
  Request.exec rc (Uv.uv_shutdown handle) this.

End Shutdown.

Module Write.

(** [Write::create], reached through [loop.resource<details::Write>()]. *)
Definition create (loop : addr) : M addr :=
  Loop.resource_request WriteReq loop.

(** [exec<uv_write_t, WriteEvent>(&uv_write, get<uv_write_t>(), handle, bufs, nbufs)];
    [rc] is what the native [uv_write] returns. *)
Definition write (rc : Z) (this handle : addr) (bufs : list Uv.uv_buf_t)
    (nbufs : nat) : M unit :=
  Request.exec rc (Uv.uv_write handle (take nbufs bufs)) this.

End Write.

(** ** [class Stream] (stream.hpp, lines 58-186) *)

Module Stream.

(** Lines 62-74.  [handle->data] is the stream itself; [data] is the local
    [unique_ptr] that adopts [buf->base], is moved into the DataEvent on
    the data branch, and is destroyed when the function returns. *)
Definition readCallback (handle : addr) (nread : Z) (buf : Uv.uv_buf_t) : M unit :=
  let target := handle in
  let data := Uv.base buf in
  do data <-
    (if decide (nread = Uv.UV_EOF) then
       do _ <- Handle.publish target EndEvent; ret data
     else if decide (nread > 0) then
       do _ <- Handle.publish target (DataEvent data nread); ret None
     else
       do _ <- Handle.publish target (ErrorEvent nread); ret data);
  unique_ptr_dtor data.

(** Lines 76-80. *)
Definition listenCallback (handle : addr) (status : Z) : M unit :=
  let target := handle in
  if decide (status <> 0) then Handle.publish target (ErrorEvent status)
  else Handle.publish target ListenEvent.

(** [Addr]: a name and a port. *)
Definition Addr : Type := string * Z.

(** Lines 88-111.  [f] is the native "get address" function: from the handle
    and the capacity it yields its status, the socket address and the
    length; [NameFunc] is [Traits::NameFunc]: from the socket address and a
    size it yields its status and the text it wrote. *)
Definition address (sizeof_ssto : Z)
    (f : addr -> Z -> Z * Uv.sockaddr * Z)
    (NameFunc : Uv.sockaddr -> Z -> Z * string) (this : addr) : M Addr :=
  let len := sizeof_ssto in
  let addr : Addr := (""%string, 0) in
  let '(err, ssto, len) := f this len in
  let addr :=
    if decide (err = 0) then
      let aptr := ssto in
      let '(err, name) := NameFunc aptr len in
      if decide (err = 0) then (name, Uv.ntohs (Uv.sin_port aptr)) else addr
    else addr in
  ret addr.

(** Lines 114-126; [rc] is what the native [uv_shutdown] returns. *)
Definition shutdown (rc : Z) (this : addr) : M unit :=
  do weak <- shared_from_this this;
  let listener := Relay weak in
  do loop <- Handle.loop this;
  do shutdown <- Shutdown.create loop;
  do _ <- Request.once KError listener shutdown;
  do _ <- Request.once KShutdown listener shutdown;
  Shutdown.shutdown rc shutdown this.

(** Lines 144-157; [rc] is what the native [uv_write] returns. *)
Definition write (rc : Z) (this : addr) (data : option buffer) (length : Z) : M unit :=
  let bufs := [Uv.uv_buf_init data length] in
  do weak <- shared_from_this this;
  let listener := Relay weak in
  do loop <- Handle.loop this;
  do write <- Write.create loop;
  do _ <- Request.once KError listener write;
  do _ <- Request.once KWrite listener write;
  Write.write rc write this bufs 1.

(** Lines 159-161: the overload on [std::unique_ptr<char[]>].  The parameter
    owns the block; [data.get()] is passed on, and the parameter is
    destroyed when the function returns. *)
Definition write_owned (rc : Z) (this : addr) (data : option buffer)
    (length : Z) : M unit :=
  do _ <- write rc this data length;
  unique_ptr_dtor data.

(** Lines 163-173; [native] is what [uv_try_write] returns. *)
Definition tryWrite (native : Z) (this : addr) (data : option buffer)
    (length : Z) : M Z :=
  let bufs := [Uv.uv_buf_init data length] in
  let bw := native in
  do bw <-
    (if decide (bw < 0) then
       do _ <- Handle.publish this (ErrorEvent bw); ret 0
     else ret bw);
  ret bw.

(** Lines 175-177: the overload on [std::unique_ptr<char[]>]. *)
Definition tryWrite_owned (native : Z) (this : addr) (data : option buffer)
    (length : Z) : M Z :=
  do bw <- tryWrite native this data length;
  do _ <- unique_ptr_dtor data;
  ret bw.

End Stream.

(** ** Observations on the logs *)

(** What was published between two worlds, when the log only grew. *)
Definition emitted (w w' : World) : list (addr * Event) :=
  drop (List.length (published w)) (published w').

(** The events of a log that were published on [a]. *)
Definition on (a : addr) (log : list (addr * Event)) : list Event :=
  (filter (fun p => p.1 = a) log).*2.

(** How many events of kind [k] a list holds. *)
Definition count (k : EventKind) (l : list Event) : nat :=
  List.length (filter (fun e => kind_of e = k) l).

(** How many events of a list own the buffer [b]. *)
Definition owners (b : buffer) (l : list Event) : nat :=
  List.length (filter (fun e => owned_by e = Some b) l).

(** How many times [b] was released between two worlds. *)
Definition releases (b : buffer) (w w' : World) : nat :=
  List.length (filter (fun x => x = b) (drop (List.length (freed w)) (freed w'))).

(** The world of a loop (object 0) that owns nothing yet, and the same
    world after the creation of one stream. *)
Definition world0 : World := mk_world 1 ∅ ∅ [] [] [].

Definition world1 : World :=
  mk_world 2 {[ 1%nat := mk_stream 0%nat ]} ∅ [] [] [].

(** The world after a write of four bytes at block 7 on that stream, when
    the native layer accepted it. *)
Definition world2 : World :=
  mk_world 3 {[ 1%nat := mk_stream 0%nat ]}
    {[ 2%nat := mk_request WriteReq 0%nat
                  [(KError, Relay 1%nat); (KWrite, Relay 1%nat)] ]}
    [(2%nat, Uv.uv_write 1%nat [Uv.mk_buf (Some 7%nat) 4])] [] [].

(** Serial numbers are handed out in increasing order: every live object
    and every queued request was allocated before [next]. *)
Definition wf (w : World) : Prop :=
  map_Forall (fun a _ => (a < next w)%nat) (streams w) /\
  map_Forall (fun a _ => (a < next w)%nat) (requests w) /\
  Forall (fun e => (e.1 < next w)%nat) (pending w).

#[global] Instance wf_dec (w : World) : Decision (wf w).
Proof. unfold wf. apply _. Defined.

(** The kind of the success event of a request. *)
Definition success_kind (t : RequestType) : EventKind :=
  match t with
  | WriteReq => KWrite
  | ShutdownReq => KShutdown
  end.

(** The request [r] carries the two relays to the stream [s] that
    [Stream::write] and [Stream::shutdown] register, and nothing else. *)
Definition registered (r s : addr) (t : RequestType) (w : World) : Prop :=
  exists loop,
    requests w !! r =
    Some (mk_request t loop [(KError, Relay s); (success_kind t, Relay s)]).

(** The world in which a request of type [t] has been created for the
    stream [s] of loop [loop] and carries its two relays. *)
Definition armed (t : RequestType) (s loop : addr) (w : World) : World :=
  set_requests
    (<[next w := mk_request t loop [(KError, Relay s); (success_kind t, Relay s)]]>
       (requests w))
    (set_next (S (next w)) w).

(** The type of request that issues a native operation. *)
Definition op_type (o : Uv.op) : RequestType :=
  match o with
  | Uv.uv_write _ _ => WriteReq
  | Uv.uv_shutdown _ => ShutdownReq
  end.

(** The outcome of a completion, as an event. *)
Definition outcome (o : Uv.op) (status : Z) : Event :=
  if decide (status = 0) then Request.success o else ErrorEvent status.

(** The native operation [o] of the request [r] awaits its completion. *)
Definition queued (r : addr) (o : Uv.op) (w : World) : Prop :=
  exists i, list_find (fun e => e.1 = r) (pending w) = Some (i, (r, o)).

(** ** The loop at work *)

(** The buffers that a run of read completions hands to the handler. *)
Definition buffers (cs : list (Z * Uv.uv_buf_t)) : list buffer :=
  flat_map (fun c => option_list (Uv.base c.2)) cs.

(** The loop delivers the read completions [cs] (count and buffer) of one
    stream, one after the other. *)
Definition read_completions (handle : addr) (cs : list (Z * Uv.uv_buf_t)) : M unit :=
  for_each (fun c => Stream.readCallback handle c.1 c.2) cs.

(** The loop reports incoming connections with the statuses [ss], one after
    the other. *)
Definition listen_completions (handle : addr) (ss : list Z) : M unit :=
  for_each (Stream.listenCallback handle) ss.

(** What a program and its loop do to the world, one action at a time: the
    operations of a stream with what the native layer answers, the
    callbacks of the loop, and the creation and destruction of streams. *)
Inductive action :=
| AWrite (rc : Z) (this : addr) (data : option buffer) (length : Z)
| AWriteOwned (rc : Z) (this : addr) (data : option buffer) (length : Z)
| ATryWrite (native : Z) (this : addr) (data : option buffer) (length : Z)
| ATryWriteOwned (native : Z) (this : addr) (data : option buffer) (length : Z)
| AShutdown (rc : Z) (this : addr)
| AComplete (req : addr) (status : Z)
| ARead (handle : addr) (nread : Z) (buf : Uv.uv_buf_t)
| AListen (handle : addr) (status : Z)
| ACreate (loop : addr)
| ADestroy (s : addr).

Definition perform (a : action) : M unit :=
  match a with
  | AWrite rc this data length => Stream.write rc this data length
  | AWriteOwned rc this data length => Stream.write_owned rc this data length
  | ATryWrite native this data length =>
      do _ <- Stream.tryWrite native this data length; ret tt
  | ATryWriteOwned native this data length =>
      do _ <- Stream.tryWrite_owned native this data length; ret tt
  | AShutdown rc this => Stream.shutdown rc this
  | AComplete req status => complete req status
  | ARead handle nread buf => Stream.readCallback handle nread buf
  | AListen handle status => Stream.listenCallback handle status
  | ACreate loop => do _ <- Loop.resource_stream loop; ret tt
  | ADestroy s => destroy s
  end.

(** The action is the completion of the request [r]. *)
Definition completes (r : addr) (a : action) : Prop :=
  match a with
  | AComplete req _ => req = r
  | _ => False
  end.

#[global] Instance completes_dec (r : addr) (a : action) : Decision (completes r a).
Proof. destruct a; cbn; apply _. Defined.

(** A run: the actions of a list, one after the other. *)
Definition run (acts : list action) : M unit := for_each perform acts.

(** [w'] is [w] with more publications, and nothing else changed. *)
Definition published_more (w w' : World) : Prop :=
  next w' = next w /\ streams w' = streams w /\ requests w' = requests w /\
  pending w' = pending w /\ freed w' = freed w /\
  exists l, published w' = published w ++ l.

(** What relates the world before an action to the world after it, for
    the requests that the action does not complete: serial numbers only
    grow, publications and releases are only added, and a request that
    exists keeps its registry and its place in the queue. *)
Definition frame (touched : addr -> Prop) (w w' : World) : Prop :=
  (next w <= next w')%nat /\
  (exists l, published w' = published w ++ l) /\
  (exists f, freed w' = freed w ++ f) /\
  (forall r, (r < next w)%nat -> ~ touched r ->
     requests w' !! r = requests w !! r) /\
  (forall r o, ~ touched r -> queued r o w -> queued r o w').

(** * Properties *)

(** ** The monad *)

Lemma bind_ret_tt (m : M unit) w : bind m (fun _ => ret tt) w = m w.
Proof. unfold bind, ret. by destruct (m w) as [[[] ?] |]. Qed.

Lemma emitted_app w w' l :
  published w' = published w ++ l -> emitted w w' = l.
Proof. intros H. unfold emitted. rewrite H. by rewrite drop_app_length. Qed.

Lemma releases_app b w w' l :
  freed w' = freed w ++ l ->
  releases b w w' = List.length (filter (fun x => x = b) l).
Proof. intros H. unfold releases. rewrite H. by rewrite drop_app_length. Qed.

(** ** Event translation of a read completion *)

Section ReadCallback.

Variables (handle : addr) (nread : Z) (buf : Uv.uv_buf_t) (w : World).

(** The event a read completion is translated into. *)
Lemma readCallback_run :
  Stream.readCallback handle nread buf w =
  Some (tt,
    if decide (nread = Uv.UV_EOF) then
      set_freed (freed w ++ option_list (Uv.base buf))
        (set_published (published w ++ [(handle, EndEvent)]) w)
    else if decide (nread > 0) then
      set_published (published w ++ [(handle, DataEvent (Uv.base buf) nread)]) w
    else
      set_freed (freed w ++ option_list (Uv.base buf))
        (set_published (published w ++ [(handle, ErrorEvent nread)]) w)).
Proof.
  unfold Stream.readCallback.
  repeat case_decide; destruct (Uv.base buf); cbn; try reflexivity.
  all: unfold set_freed; cbn; by rewrite ?app_nil_r.
Qed.


(** [UV_EOF] is a negative status. *)
Lemma UV_EOF_neg : Uv.UV_EOF < 0.
Proof. reflexivity. Qed.

(** C2: every read completion publishes exactly one event on the stream:
    an EndEvent at the end-of-stream marker, for a positive count a
    DataEvent with the buffer of the completion and the count as length, and
    for a negative count other than the marker an ErrorEvent carrying the
    count. *)
Theorem readCallback_translates :
  exists w' e,
    Stream.readCallback handle nread buf w = Some (tt, w') /\
    emitted w w' = [(handle, e)] /\
    (nread = Uv.UV_EOF -> e = EndEvent) /\
    (nread > 0 -> e = DataEvent (Uv.base buf) nread) /\
    (nread < 0 -> nread <> Uv.UV_EOF -> e = ErrorEvent nread).
Proof.
  pose proof UV_EOF_neg as Hneg.
  eexists _, (if decide (nread = Uv.UV_EOF) then EndEvent
              else if decide (nread > 0) then DataEvent (Uv.base buf) nread
              else ErrorEvent nread).
  split; [apply readCallback_run |].
  repeat case_decide; (split; [by apply emitted_app |]);
    repeat split; intros; first [reflexivity | lia | congruence].
Qed.

End ReadCallback.

(** C9: a read completion with a count of zero publishes exactly one
    ErrorEvent, with code 0. *)
Theorem readCallback_zero (handle : addr) (buf : Uv.uv_buf_t) (w : World) :
  exists w',
    Stream.readCallback handle 0 buf w = Some (tt, w') /\
    emitted w w' = [(handle, ErrorEvent 0)].
Proof.
  eexists. split; [apply readCallback_run |].
  repeat case_decide; try done. by apply emitted_app.
Qed.

(** C3: on each branch of the read completion the handler gives up the
    buffer exactly once.  On the data branch the buffer goes into the
    DataEvent and the handler releases nothing; on the other branches the
    handler releases it and the event it publishes owns nothing.  A null
    buffer is never released. *)
Theorem readCallback_buffer_once (handle : addr) (nread : Z) (b : buffer)
    (n : Z) (w : World) :
  exists w',
    Stream.readCallback handle nread (Uv.mk_buf (Some b) n) w = Some (tt, w') /\
    (nread <> Uv.UV_EOF -> nread > 0 ->
       freed w' = freed w /\
       emitted w w' = [(handle, DataEvent (Some b) nread)]) /\
    (nread = Uv.UV_EOF \/ nread <= 0 ->
       freed w' = freed w ++ [b] /\ owners b (emitted w w').*2 = 0%nat) /\
    (releases b w w' + owners b (emitted w w').*2 = 1)%nat /\
    (exists w0,
       Stream.readCallback handle nread (Uv.mk_buf None n) w = Some (tt, w0) /\
       freed w0 = freed w).
Proof.
  eexists. split; [apply readCallback_run |]. cbn [Uv.base option_list].
  repeat split.
  - repeat case_decide; try lia. reflexivity.
  - repeat case_decide; try lia. by apply emitted_app.
  - repeat case_decide; try lia; reflexivity.
  - repeat case_decide; try lia;
      (erewrite emitted_app; [| reflexivity]); reflexivity.
  - repeat case_decide.
    + erewrite releases_app, emitted_app; [| reflexivity | reflexivity].
      cbn. rewrite decide_True; done.
    + erewrite (releases_app _ _ _ []), emitted_app;
        [| reflexivity | by rewrite app_nil_r].
      cbn. rewrite decide_True; done.
    + erewrite releases_app, emitted_app; [| reflexivity | reflexivity].
      cbn. rewrite decide_True; done.
  - eexists. split; [apply readCallback_run |]. cbn [Uv.base option_list].
    repeat case_decide; cbn; by rewrite ?app_nil_r.
Qed.

(** ** Incoming connections *)

(** C7: a readiness callback with status 0 publishes exactly one ListenEvent
    on the stream and no ErrorEvent; with a nonzero status it publishes
    exactly one ErrorEvent carrying the status and no ListenEvent. *)
Theorem listenCallback_translates (handle : addr) (status : Z) (w : World) :
  exists w',
    Stream.listenCallback handle status w = Some (tt, w') /\
    (status = 0 -> emitted w w' = [(handle, ListenEvent)]) /\
    (status <> 0 -> emitted w w' = [(handle, ErrorEvent status)]) /\
    (status = 0 ->
       count KListen (on handle (emitted w w')) = 1%nat /\
       count KError (on handle (emitted w w')) = 0%nat) /\
    (status <> 0 ->
       count KError (on handle (emitted w w')) = 1%nat /\
       count KListen (on handle (emitted w w')) = 0%nat).
Proof.
  unfold Stream.listenCallback, Handle.publish, modify.
  case_decide as Hs; eexists; (split; [reflexivity |]);
    (erewrite emitted_app; [| reflexivity]);
    unfold on, count; cbn; rewrite decide_True by done; cbn;
    repeat split; intros; first [done | lia].
Qed.

(** ** Immediate writes *)

Lemma tryWrite_run (native : Z) (this : addr) (data : option buffer)
    (length : Z) (w : World) :
  Stream.tryWrite native this data length w =
  if decide (native < 0)
  then Some (0, set_published (published w ++ [(this, ErrorEvent native)]) w)
  else Some (native, w).
Proof. unfold Stream.tryWrite. by case_decide. Qed.

(** C4: when the native attempt is negative, tryWrite publishes exactly one
    ErrorEvent carrying that value on the stream and returns 0; otherwise it
    returns the native value and publishes nothing; the count it returns is
    never negative. *)
Theorem tryWrite_never_negative (native : Z) (this : addr)
    (data : option buffer) (length : Z) (w : World) :
  exists bw w',
    Stream.tryWrite native this data length w = Some (bw, w') /\
    0 <= bw /\
    (native < 0 -> bw = 0 /\ emitted w w' = [(this, ErrorEvent native)]) /\
    (0 <= native -> bw = native /\ w' = w).
Proof.
  rewrite tryWrite_run. case_decide; eexists _, _; (split; [reflexivity |]).
  - repeat split; try lia. by apply emitted_app.
  - repeat split; lia.
Qed.

(** C10: the overload of tryWrite on a uniquely-owned buffer releases the
    buffer exactly once by the time it returns, whatever the native attempt
    yields (failure, partial write, complete write); what the caller gets
    back is the count alone. *)
Theorem tryWrite_owned_releases (native : Z) (this : addr) (b : buffer)
    (length : Z) (w : World) :
  exists bw w',
    Stream.tryWrite_owned native this (Some b) length w = Some (bw, w') /\
    freed w' = freed w ++ [b] /\
    bw = (if decide (native < 0) then 0 else native).
Proof.
  unfold Stream.tryWrite_owned, bind. rewrite tryWrite_run.
  case_decide; eexists _, _; (split; [reflexivity |]); done.
Qed.

(** ** The address helper *)

(** C8: the helper returns the empty name and port 0 when the lookup fails
    or when the formatting of the name fails, returns the formatted name
    and the port in host order when both succeed, and in every case leaves
    the world as it is: it publishes nothing. *)
Theorem address_sentinel (sizeof_ssto : Z)
    (f : addr -> Z -> Z * Uv.sockaddr * Z)
    (NameFunc : Uv.sockaddr -> Z -> Z * string) (this : addr) (w : World) :
  exists a,
    Stream.address sizeof_ssto f NameFunc this w = Some (a, w) /\
    let lookup := f this sizeof_ssto in
    let naming := NameFunc lookup.1.2 lookup.2 in
    (lookup.1.1 <> 0 -> a = (""%string, 0)) /\
    (lookup.1.1 = 0 -> naming.1 <> 0 -> a = (""%string, 0)) /\
    (lookup.1.1 = 0 -> naming.1 = 0 ->
       a = (naming.2, Uv.ntohs (Uv.sin_port lookup.1.2))).
Proof.
  unfold Stream.address.
  destruct (f this sizeof_ssto) as [[err ssto] len] eqn:Hf. cbn.
  destruct (NameFunc ssto len) as [err' name] eqn:Hn. cbn.
  repeat case_decide; eexists; (split; [reflexivity |]);
    repeat split; intros; first [done | congruence].
Qed.

(** ** The relay between a request and its stream *)

Lemma listener_dead (weak : addr) (e : Event) (w : World) :
  streams w !! weak = None -> listener weak e w = Some (tt, w).
Proof. intros H. unfold listener, lock, gets, bind. by rewrite H. Qed.

Lemma listener_live (weak : addr) (e : Event) (w : World) :
  is_Some (streams w !! weak) ->
  listener weak e w =
  Some (tt, set_published (published w ++ [(weak, e)]) w).
Proof. intros [so H]. unfold listener, lock, gets, bind. by rewrite H. Qed.

Lemma publish_run (r : addr) (e : Event) (w : World) (o : RequestObj) :
  requests w !! r = Some o ->
  Request.publish r e w =
  for_each (fun kl => call kl.2 e)
    (filter (fun kl => kl.1 = kind_of e) (r_once o))
    (set_requests
       (<[r := Request.set_once
                 (filter (fun kl => kl.1 <> kind_of e) (r_once o)) o]>
          (requests w))
       (set_published (published w ++ [(r, e)]) w)).
Proof. intros H. unfold Request.publish, bind, modify, gets. cbn. by rewrite H. Qed.

(** A publication of the outcome on a request that carries the two relays
    takes one of them off and calls it. *)
Lemma publish_registered (r s : addr) (t : RequestType) (e : Event) (w : World) :
  registered r s t w ->
  kind_of e = KError \/ kind_of e = success_kind t ->
  exists o',
    Request.publish r e w =
    listener s e
      (set_requests (<[r := o']> (requests w))
         (set_published (published w ++ [(r, e)]) w)).
Proof.
  intros [loop Hr] Hk. rewrite (publish_run _ _ _ _ Hr). cbn [r_once].
  destruct Hk as [-> | ->]; destruct t; cbn [success_kind];
    rewrite !filter_cons, !filter_nil; cbn [fst];
    repeat case_decide; try done;
    eexists; cbn [for_each snd call]; by rewrite bind_ret_tt.
Qed.

Lemma complete_run (r : addr) (o : Uv.op) (status : Z) (w : World) :
  queued r o w ->
  exists i,
    complete r status w =
    Request.publish r
      (if decide (status = 0) then Request.success o else ErrorEvent status)
      (set_pending (delete i (pending w)) w).
Proof.
  intros [i Hq]. exists i. unfold complete, bind, gets, modify.
  rewrite Hq. unfold Request.defaultCallback. by case_decide.
Qed.

Lemma outcome_kind (o : Uv.op) (status : Z) :
  kind_of (outcome o status) = KError \/
  kind_of (outcome o status) = success_kind (op_type o).
Proof. unfold outcome. case_decide; [right | left]; by destruct o. Qed.

(** Completion while the stream lives: the request publishes the outcome
    and the relay publishes it again on the stream. *)
Lemma complete_live (r s : addr) (o : Uv.op) (status : Z) (w : World) :
  registered r s (op_type o) w -> queued r o w -> is_Some (streams w !! s) ->
  exists w',
    complete r status w = Some (tt, w') /\
    published w' = published w ++ [(r, outcome o status); (s, outcome o status)] /\
    streams w' = streams w /\ freed w' = freed w /\ next w' = next w.
Proof.
  intros Hr Hq Hs.
  destruct (complete_run r o status w Hq) as [i ->]. fold (outcome o status).
  destruct (publish_registered r s (op_type o) (outcome o status)
              (set_pending (delete i (pending w)) w) Hr (outcome_kind o status))
    as [o' ->].
  rewrite listener_live by done. eexists. split; [reflexivity |].
  cbn. by rewrite <- app_assoc.
Qed.

(** Completion after the stream is gone: the request publishes the outcome,
    and that is all. *)
Lemma complete_dead (r s : addr) (o : Uv.op) (status : Z) (w : World) :
  registered r s (op_type o) w -> queued r o w -> streams w !! s = None ->
  exists w',
    complete r status w = Some (tt, w') /\
    published w' = published w ++ [(r, outcome o status)] /\
    streams w' = streams w /\ freed w' = freed w /\ next w' = next w.
Proof.
  intros Hr Hq Hs.
  destruct (complete_run r o status w Hq) as [i ->]. fold (outcome o status).
  destruct (publish_registered r s (op_type o) (outcome o status)
              (set_pending (delete i (pending w)) w) Hr (outcome_kind o status))
    as [o' ->].
  rewrite listener_dead by done. eexists. split; [reflexivity |]. done.
Qed.

(** ** Issuing a write or a shutdown *)

Lemma write_run (rc : Z) (this : addr) (data : option buffer) (length : Z)
    (w : World) (so : StreamObj) :
  streams w !! this = Some so ->
  Stream.write rc this data length w =
  Request.exec rc (Uv.uv_write this [Uv.uv_buf_init data length]) (next w)
    (armed WriteReq this (s_loop so) w).
Proof.
  intros H.
  unfold Stream.write, shared_from_this, lock, Handle.loop, Write.create,
    Loop.resource_request, Request.once, Write.write, bind, gets, modify, ret.
  cbn. rewrite H. cbn. rewrite H. unfold armed, set_requests, set_next. cbn.
  rewrite !alter_insert_eq. reflexivity.
Qed.

Lemma shutdown_run (rc : Z) (this : addr) (w : World) (so : StreamObj) :
  streams w !! this = Some so ->
  Stream.shutdown rc this w =
  Request.exec rc (Uv.uv_shutdown this) (next w)
    (armed ShutdownReq this (s_loop so) w).
Proof.
  intros H.
  unfold Stream.shutdown, shared_from_this, lock, Handle.loop, Shutdown.create,
    Loop.resource_request, Request.once, Shutdown.shutdown, bind, gets, modify, ret.
  cbn. rewrite H. cbn. rewrite H. unfold armed, set_requests, set_next. cbn.
  rewrite !alter_insert_eq. reflexivity.
Qed.

Lemma armed_registered (t : RequestType) (s loop : addr) (w : World) :
  registered (next w) s t (armed t s loop w).
Proof. exists loop. unfold armed. cbn. apply lookup_insert_eq. Qed.

(** In a well-formed world the serial number of the next object is met
    nowhere: not among the live objects, not in the queue. *)
Lemma wf_fresh (w : World) :
  wf w ->
  streams w !! next w = None /\
  requests w !! next w = None /\
  list_find (fun e : addr * Uv.op => e.1 = next w) (pending w) = None.
Proof.
  intros (Hs & Hr & Hp). repeat split.
  - destruct (streams w !! next w) eqn:E; [| done].
    apply (map_Forall_lookup_1 _ _ _ _ Hs) in E. lia.
  - destruct (requests w !! next w) eqn:E; [| done].
    apply (map_Forall_lookup_1 _ _ _ _ Hr) in E. lia.
  - apply list_find_None. eapply Forall_impl; [exact Hp |].
    cbn. intros e He. lia.
Qed.

Lemma wf_live (w : World) (s : addr) :
  wf w -> is_Some (streams w !! s) -> s <> next w.
Proof.
  intros Hw [so Hs] ->. destruct (wf_fresh w Hw) as (E & _). congruence.
Qed.

(** The request that an accepted native call leaves behind. *)
Lemma exec_accepted (o : Uv.op) (s loop : addr) (w : World) :
  wf w ->
  exists w',
    Request.exec 0 o (next w) (armed (op_type o) s loop w) = Some (tt, w') /\
    requests w' !! next w =
      Some (mk_request (op_type o) loop
              [(KError, Relay s); (success_kind (op_type o), Relay s)]) /\
    queued (next w) o w' /\
    pending w' = pending w ++ [(next w, o)] /\
    published w' = published w /\ streams w' = streams w /\
    freed w' = freed w.
Proof.
  intros Hw. destruct (wf_fresh w Hw) as (_ & _ & Hq).
  unfold Request.exec. rewrite decide_True by done.
  eexists. split; [reflexivity |]. repeat split.
  - cbn. apply lookup_insert_eq.
  - exists (List.length (pending w)). cbn.
    rewrite list_find_app_r by done. cbn. by rewrite decide_True.
Qed.

(** A native call that fails on the spot: the request publishes the
    ErrorEvent at once, the relay passes it on, nothing is queued. *)
Lemma exec_refused (rc : Z) (o : Uv.op) (s loop : addr) (w : World) :
  rc <> 0 -> is_Some (streams w !! s) ->
  exists w',
    Request.exec rc o (next w) (armed (op_type o) s loop w) = Some (tt, w') /\
    published w' = published w ++ [(next w, ErrorEvent rc); (s, ErrorEvent rc)] /\
    pending w' = pending w /\ streams w' = streams w /\ freed w' = freed w.
Proof.
  intros Hrc Hs. unfold Request.exec. rewrite decide_False by done.
  destruct (publish_registered (next w) s (op_type o) (ErrorEvent rc)
              (armed (op_type o) s loop w)) as [o' ->].
  { apply armed_registered. }
  { by left. }
  rewrite listener_live by done. eexists. split; [reflexivity |].
  cbn. by rewrite <- app_assoc.
Qed.

Lemma on_pair (r s : addr) (e : Event) :
  s <> r -> on s [(r, e); (s, e)] = [e].
Proof.
  intros H. unfold on. rewrite !filter_cons, filter_nil. cbn.
  rewrite decide_False by congruence. by rewrite decide_True.
Qed.

Lemma on_other (r s : addr) (e : Event) : s <> r -> on s [(r, e)] = [].
Proof.
  intros H. unfold on. rewrite filter_cons, filter_nil. cbn.
  by rewrite decide_False by congruence.
Qed.

(** C5: a call to write on a live stream creates a fresh Write request on
    the loop of the stream, registers on it exactly two one-shot listeners,
    for ErrorEvent and for WriteEvent, both relays to the stream, and queues
    the native write.  Whenever the completion comes while the stream lives,
    status 0 puts exactly one WriteEvent and no ErrorEvent on the stream,
    and a nonzero status exactly one ErrorEvent and no WriteEvent.  A native
    write that is refused on the spot puts exactly one ErrorEvent on the
    stream. *)
Theorem write_relays_outcome (this : addr) (data : option buffer)
    (length : Z) (w : World) (so : StreamObj) :
  wf w -> streams w !! this = Some so ->
  let r := next w in
  let o := Uv.uv_write this [Uv.uv_buf_init data length] in
  (exists w1,
     Stream.write 0 this data length w = Some (tt, w1) /\
     requests w !! r = None /\
     requests w1 !! r =
       Some (mk_request WriteReq (s_loop so)
               [(KError, Relay this); (KWrite, Relay this)]) /\
     pending w1 = pending w ++ [(r, o)] /\
     queued r o w1 /\
     emitted w w1 = [] /\
     streams w1 = streams w) /\
  (forall w' status,
     registered r this WriteReq w' -> queued r o w' ->
     is_Some (streams w' !! this) ->
     exists w2,
       complete r status w' = Some (tt, w2) /\
       (status = 0 ->
          on this (emitted w' w2) = [WriteEvent] /\
          count KWrite (on this (emitted w' w2)) = 1%nat /\
          count KError (on this (emitted w' w2)) = 0%nat) /\
       (status <> 0 ->
          on this (emitted w' w2) = [ErrorEvent status] /\
          count KError (on this (emitted w' w2)) = 1%nat /\
          count KWrite (on this (emitted w' w2)) = 0%nat)) /\
  (forall rc, rc <> 0 ->
     exists w1,
       Stream.write rc this data length w = Some (tt, w1) /\
       on this (emitted w w1) = [ErrorEvent rc] /\
       pending w1 = pending w).
Proof.
  intros Hw Hs r o.
  assert (Hne : this <> r) by (apply wf_live; [done | by exists so]).
  split; [| split].
  - destruct (exec_accepted o this (s_loop so) w Hw)
      as (w1 & He & Hr & Hq & Hp & Hl & Hst & _).
    exists w1. rewrite (write_run _ _ _ _ _ _ Hs). split; [exact He |].
    split; [apply (wf_fresh w Hw) |]. split; [exact Hr |].
    split; [exact Hp |]. split; [exact Hq |]. split; [| exact Hst].
    apply emitted_app. by rewrite app_nil_r.
  - intros w' status Hr Hq Hl.
    destruct (complete_live r this o status w' Hr Hq Hl)
      as (w2 & Hc & Hp & _).
    exists w2. split; [exact Hc |].
    rewrite (emitted_app _ _ _ Hp), (on_pair _ _ _ Hne). unfold outcome.
    split; intros Hst.
    + rewrite decide_True by done. repeat split.
    + rewrite decide_False by done. repeat split.
  - intros rc Hrc.
    destruct (exec_refused rc o this (s_loop so) w Hrc) as (w1 & He & Hp & Hq & _).
    { by exists so. }
    exists w1. rewrite (write_run _ _ _ _ _ _ Hs). split; [exact He |].
    split; [| exact Hq]. by rewrite (emitted_app _ _ _ Hp), (on_pair _ _ _ Hne).
Qed.

Lemma destroy_run (s : addr) (w : World) :
  destroy s w = Some (tt, set_streams (delete s (streams w)) w).
Proof. reflexivity. Qed.

(** C1: the relay of a stream that has been destroyed leaves the world as
    it is.  A write or a shutdown followed by the destruction of its stream
    leaves a queued request that carries the two relays to the dead stream;
    when such a request completes, with whatever status, the only
    publication is the request's own, and neither the live streams nor the
    released buffers change. *)
Theorem relay_noop_after_destroy :
  (forall s e w, streams w !! s = None -> listener s e w = Some (tt, w)) /\
  (forall r s o status w,
     registered r s (op_type o) w -> queued r o w -> streams w !! s = None ->
     exists w',
       complete r status w = Some (tt, w') /\
       emitted w w' = [(r, outcome o status)] /\
       (forall a, a <> r -> on a (emitted w w') = []) /\
       streams w' = streams w /\ freed w' = freed w /\ next w' = next w) /\
  (forall this so data length w,
     wf w -> streams w !! this = Some so ->
     let o := Uv.uv_write this [Uv.uv_buf_init data length] in
     exists w1,
       (do _ <- Stream.write 0 this data length; destroy this) w = Some (tt, w1) /\
       registered (next w) this (op_type o) w1 /\ queued (next w) o w1 /\
       streams w1 !! this = None) /\
  (forall this so w,
     wf w -> streams w !! this = Some so ->
     let o := Uv.uv_shutdown this in
     exists w1,
       (do _ <- Stream.shutdown 0 this; destroy this) w = Some (tt, w1) /\
       registered (next w) this (op_type o) w1 /\ queued (next w) o w1 /\
       streams w1 !! this = None).
Proof.
  split; [exact listener_dead |]. split; [| split].
  - intros r s o status w Hr Hq Hs.
    destruct (complete_dead r s o status w Hr Hq Hs)
      as (w' & Hc & Hp & Hst & Hf & Hn).
    exists w'. rewrite (emitted_app _ _ _ Hp).
    repeat split; try done. intros a Ha. by apply on_other.
  - intros this so data length w Hw Hs o.
    destruct (exec_accepted o this (s_loop so) w Hw)
      as (w1 & He & Hr & Hq & _).
    eexists. split.
    { unfold bind. rewrite (write_run _ _ _ _ _ _ Hs).
      unfold o in He. cbn [op_type] in He. rewrite He. apply destroy_run. }
    split; [by eexists |]. split; [exact Hq |]. cbn. apply lookup_delete_eq.
  - intros this so w Hw Hs o.
    destruct (exec_accepted o this (s_loop so) w Hw)
      as (w1 & He & Hr & Hq & _).
    eexists. split.
    { unfold bind. rewrite (shutdown_run _ _ _ _ Hs).
      unfold o in He. cbn [op_type] in He. rewrite He. apply destroy_run. }
    split; [by eexists |]. split; [exact Hq |]. cbn. apply lookup_delete_eq.
Qed.

(** ** Buffers handed over to a write *)

(** C6: the overload of write on a uniquely-owned buffer does not keep the
    buffer alive for the native write it issues.  On the stream of
    [world1], with block 7 of four bytes and a native layer that accepts
    the write, the overload returns in a world where the request is queued
    on block 7 and block 7 has been released; the completion of that
    native write comes only afterwards, and is relayed as usual. *)
Theorem write_owned_releases_too_early :
  let w2 := set_freed [7%nat] world2 in
  Stream.write_owned 0 1%nat (Some 7%nat) 4 world1 = Some (tt, w2) /\
  pending w2 = [(2%nat, Uv.uv_write 1%nat [Uv.mk_buf (Some 7%nat) 4])] /\
  queued 2%nat (Uv.uv_write 1%nat [Uv.mk_buf (Some 7%nat) 4]) w2 /\
  7%nat ∈ freed w2 /\
  exists w3,
    complete 2%nat 0 w2 = Some (tt, w3) /\
    emitted w2 w3 = [(2%nat, WriteEvent); (1%nat, WriteEvent)] /\
    freed w3 = [7%nat].
Proof.
  intros w2.
  assert (Hq : queued 2%nat (Uv.uv_write 1%nat [Uv.mk_buf (Some 7%nat) 4]) w2)
    by (by exists 0%nat).
  split_and!; try done.
  - apply list_elem_of_singleton. reflexivity.
  - destruct (complete_live 2%nat 1%nat
                (Uv.uv_write 1%nat [Uv.mk_buf (Some 7%nat) 4]) 0 w2)
      as (w3 & Hc & Hp & _ & Hf & _); [by eexists | exact Hq | by eexists |].
    exists w3. split; [exact Hc |]. split; [| exact Hf].
    by rewrite (emitted_app _ _ _ Hp).
Qed.

(** X6: when the overload returns after an accepted native write, the request is
    still queued on the buffer that has just been released. *)
Remark write_owned_queued_on_released (this : addr) (b : buffer) (length : Z)
    (w : World) (so : StreamObj) :
  wf w -> streams w !! this = Some so ->
  exists w2,
    Stream.write_owned 0 this (Some b) length w = Some (tt, w2) /\
    queued (next w) (Uv.uv_write this [Uv.uv_buf_init (Some b) length]) w2 /\
    b ∈ freed w2.
Proof.
  intros Hw Hs. unfold Stream.write_owned, bind.
  rewrite (write_run _ _ _ _ _ _ Hs).
  set (o := Uv.uv_write this [Uv.uv_buf_init (Some b) length]).
  destruct (exec_accepted o this (s_loop so) w Hw)
    as (w1 & He & _ & Hq & _).
  unfold o in *; cbn [op_type] in He.
  rewrite He. eexists. split; [reflexivity |]. split; [exact Hq |].
  cbn. apply elem_of_app. right. by apply list_elem_of_singleton.
Qed.

(** ** The allocation invariant *)

Create HintDb uvw.

Lemma wf_world0 : wf world0.
Proof. apply (bool_decide_unpack _). vm_compute. reflexivity. Qed.

Lemma wf_same (w w' : World) :
  next w' = next w -> streams w' = streams w -> requests w' = requests w ->
  pending w' = pending w -> wf w -> wf w'.
Proof. unfold wf. by intros -> -> -> ->. Qed.

Lemma wf_listener (s : addr) (e : Event) (w w' : World) :
  wf w -> listener s e w = Some (tt, w') -> wf w'.
Proof.
  unfold listener, lock, gets, bind, Handle.publish, modify, ret.
  intros Hw. destruct (streams w !! s); intros [= <-]; [| done].
  by apply (wf_same w).
Qed.

(** The listeners of a registry are called one after the other; each call
    keeps the invariant. *)
Lemma wf_for_each (e : Event) (l : list (EventKind * Listener)) :
  forall w w',
    wf w -> for_each (fun kl => call kl.2 e) l w = Some (tt, w') -> wf w'.
Proof.
  induction l as [| [k [s]] l IH]; intros w w' Hw; cbn.
  - by intros [= <-].
  - unfold bind. destruct (listener s e w) as [[[] w1] |] eqn:E; [| done].
    intros H. eapply IH; [| exact H]. by eapply wf_listener.
Qed.

Lemma wf_publish (r : addr) (e : Event) (w w' : World) :
  wf w -> Request.publish r e w = Some (tt, w') -> wf w'.
Proof.
  intros Hw. destruct (requests w !! r) as [o |] eqn:E.
  - rewrite (publish_run _ _ _ _ E). apply wf_for_each.
    destruct Hw as (Hs & Hr & Hp). repeat split; cbn; try done.
    apply map_Forall_insert_2; [| done].
    apply (map_Forall_lookup_1 _ _ _ _ Hr E).
  - unfold Request.publish, bind, modify, gets, ret. cbn. rewrite E.
    intros [= <-]. by apply (wf_same w).
Qed.

Lemma wf_armed (t : RequestType) (s loop : addr) (w : World) :
  wf w -> wf (armed t s loop w).
Proof.
  intros (Hs & Hr & Hp). unfold armed. repeat split; cbn.
  - eapply map_Forall_impl; [exact Hs |]. cbn. lia.
  - apply map_Forall_insert_2; [lia |].
    eapply map_Forall_impl; [exact Hr |]. cbn. lia.
  - eapply Forall_impl; [exact Hp |]. cbn. lia.
Qed.

Lemma next_armed (t : RequestType) (s loop : addr) (w : World) :
  (next w < next (armed t s loop w))%nat.
Proof. cbn. lia. Qed.

#[local] Hint Resolve wf_armed next_armed : uvw.

Lemma wf_exec (rc : Z) (o : Uv.op) (r : addr) (w w' : World) :
  wf w -> (r < next w)%nat -> Request.exec rc o r w = Some (tt, w') -> wf w'.
Proof.
  intros Hw Hlt. unfold Request.exec. case_decide.
  - intros [= <-]. destruct Hw as (Hs & Hr & Hp). repeat split; cbn; try done.
    apply Forall_app. split; [done |]. by apply Forall_singleton.
  - by apply wf_publish.
Qed.

(** The invariant holds in the world of a fresh loop and is kept by the
    creation and the destruction of a stream, by write and shutdown, by
    the completion of a request and by the callbacks of the stream. *)
Theorem wf_invariant (w w' : World) :
  wf w ->
  (forall loop a, Loop.resource_stream loop w = Some (a, w') -> wf w') /\
  (forall s, destroy s w = Some (tt, w') -> wf w') /\
  (forall rc this data length,
     Stream.write rc this data length w = Some (tt, w') -> wf w') /\
  (forall rc this, Stream.shutdown rc this w = Some (tt, w') -> wf w') /\
  (forall r status, complete r status w = Some (tt, w') -> wf w') /\
  (forall handle nread buf,
     Stream.readCallback handle nread buf w = Some (tt, w') -> wf w') /\
  (forall handle status,
     Stream.listenCallback handle status w = Some (tt, w') -> wf w').
Proof.
  intros Hw. split_and!.
  - intros loop a [= _ <-]. split_and!; cbn.
    + eapply map_Forall_insert_2; [lia |].
      eapply map_Forall_impl; [apply Hw |]. cbn. lia.
    + eapply map_Forall_impl; [apply Hw |]. cbn. lia.
    + eapply Forall_impl; [apply Hw |]. cbn. lia.
  - intros s [= <-]. destruct Hw as (Hs & Hr & Hp). repeat split; cbn; try done.
    by apply map_Forall_delete.
  - intros rc this data length.
    destruct (streams w !! this) as [so |] eqn:E.
    + rewrite (write_run _ _ _ _ _ _ E). apply wf_exec; auto with uvw.
    + unfold Stream.write, shared_from_this, lock, gets, bind. by rewrite E.
  - intros rc this.
    destruct (streams w !! this) as [so |] eqn:E.
    + rewrite (shutdown_run _ _ _ _ E). apply wf_exec; auto with uvw.
    + unfold Stream.shutdown, shared_from_this, lock, gets, bind. by rewrite E.
  - intros r status. unfold complete, bind, gets, modify.
    destruct (list_find _ (pending w)) as [[i [r' o]] |]; [| by intros [= <-]].
    unfold Request.defaultCallback.
    assert (wf (set_pending (delete i (pending w)) w)).
    { destruct Hw as (Hs & Hr & Hp). repeat split; cbn; try done.
      by apply Forall_delete. }
    case_decide; by apply wf_publish.
  - intros handle nread buf. rewrite readCallback_run. intros [= <-].
    repeat case_decide; by apply (wf_same w).
  - intros handle status.
    unfold Stream.listenCallback, Handle.publish, modify.
    case_decide; intros [= <-]; by apply (wf_same w).
Qed.

(** ** The properties at work on concrete worlds *)

Example world1_created :
  Loop.resource_stream 0%nat world0 = Some (1%nat, world1).
Proof. reflexivity. Qed.

Lemma readCallback_translates_witness :
  5 > 0 /\
  exists w',
    Stream.readCallback 1%nat 5 (Uv.mk_buf (Some 7%nat) 64) world1 = Some (tt, w') /\
    emitted world1 w' = [(1%nat, DataEvent (Some 7%nat) 5)].
Proof.
  split; [lia |].
  destruct (readCallback_translates 1%nat 5 (Uv.mk_buf (Some 7%nat) 64) world1)
    as (w' & e & Hr & He & _ & Hd & _).
  exists w'. split; [exact Hr |]. rewrite He, Hd; [reflexivity | lia].
Defined.

Lemma readCallback_buffer_once_witness :
  (Uv.UV_EOF = Uv.UV_EOF \/ Uv.UV_EOF <= 0) /\
  exists w',
    Stream.readCallback 1%nat Uv.UV_EOF (Uv.mk_buf (Some 7%nat) 64) world1 = Some (tt, w') /\
    freed w' = [7%nat] /\ owners 7%nat (emitted world1 w').*2 = 0%nat.
Proof.
  split; [by left |].
  destruct (readCallback_buffer_once 1%nat Uv.UV_EOF 7%nat 64 world1)
    as (w' & Hr & _ & He & _).
  exists w'. split; [exact Hr |]. apply He. by left.
Defined.

Lemma listenCallback_translates_witness :
  exists w',
    Stream.listenCallback 1%nat 0 world1 = Some (tt, w') /\
    emitted world1 w' = [(1%nat, ListenEvent)].
Proof.
  destruct (listenCallback_translates 1%nat 0 world1) as (w' & Hr & Hz & _).
  exists w'. split; [exact Hr |]. apply Hz. reflexivity.
Defined.

Lemma tryWrite_never_negative_witness :
  -3 < 0 /\
  exists w',
    Stream.tryWrite (-3) 1%nat (Some 7%nat) 4 world1 = Some (0, w') /\
    emitted world1 w' = [(1%nat, ErrorEvent (-3))].
Proof.
  split; [lia |].
  destruct (tryWrite_never_negative (-3) 1%nat (Some 7%nat) 4 world1)
    as (bw & w' & Hr & _ & Hn & _).
  destruct Hn as [-> He]; [lia |].
  exists w'. split; [exact Hr | exact He].
Defined.

(** A lookup that fails with status -9, and a formatting that is never
    reached. *)
Lemma address_sentinel_witness :
  exists a,
    Stream.address 128 (fun _ _ => (-9, Uv.mk_sockaddr (0, 80), 16))
      (fun _ _ => (0, "127.0.0.1"%string)) 1%nat world1 = Some (a, world1) /\
    a = (""%string, 0).
Proof.
  destruct (address_sentinel 128 (fun _ _ => (-9, Uv.mk_sockaddr (0, 80), 16))
              (fun _ _ => (0, "127.0.0.1"%string)) 1%nat world1)
    as (a & Hr & Hl & _).
  exists a. split; [exact Hr |]. apply Hl. cbn. lia.
Defined.

Lemma world1_wf : wf world1.
Proof. apply (bool_decide_unpack _). vm_compute. reflexivity. Defined.

Lemma write_relays_outcome_witness :
  wf world1 /\ streams world1 !! 1%nat = Some (mk_stream 0%nat) /\
  exists w1 w2,
    Stream.write 0 1%nat (Some 7%nat) 4 world1 = Some (tt, w1) /\
    complete 2%nat 0 w1 = Some (tt, w2) /\
    on 1%nat (emitted w1 w2) = [WriteEvent].
Proof.
  split; [exact world1_wf |]. split; [reflexivity |].
  destruct (write_relays_outcome 1%nat (Some 7%nat) 4 world1 (mk_stream 0%nat)
              world1_wf eq_refl) as ((w1 & Hw & _ & Hr & _ & Hq & _ & Hs) & Hc & _).
  destruct (Hc w1 0) as (w2 & Hd & Hz & _).
  { eexists. exact Hr. }
  { exact Hq. }
  { rewrite Hs. by eexists. }
  exists w1, w2. split; [exact Hw |]. split; [exact Hd |]. by apply Hz.
Defined.

Lemma relay_noop_after_destroy_witness :
  wf world1 /\ streams world1 !! 1%nat = Some (mk_stream 0%nat) /\
  exists w1 w2,
    (do _ <- Stream.write 0 1%nat (Some 7%nat) 4; destroy 1%nat) world1 = Some (tt, w1) /\
    complete 2%nat (-1) w1 = Some (tt, w2) /\
    emitted w1 w2 = [(2%nat, ErrorEvent (-1))] /\
    on 1%nat (emitted w1 w2) = [].
Proof.
  split; [exact world1_wf |]. split; [reflexivity |].
  destruct relay_noop_after_destroy as (_ & Hc & Hw & _).
  destruct (Hw 1%nat (mk_stream 0%nat) (Some 7%nat) 4 world1 world1_wf eq_refl)
    as (w1 & H1 & Hr & Hq & Hs).
  destruct (Hc _ _ _ (-1) w1 Hr Hq Hs) as (w2 & H2 & He & Ho & _).
  exists w1, w2. split; [exact H1 |]. split; [exact H2 |].
  split; [exact He |]. apply Ho. cbn. lia.
Defined.


(** * Further properties of the stream layer *)

(** ** What a read completion never publishes *)

(** X1: from the event that a read completion publishes one reads the
    completion back: an EndEvent only at the end-of-stream marker, a
    DataEvent only for a positive count (its length, with the buffer of the
    completion), an ErrorEvent only for a count that is zero or negative
    and not the marker (its code); no other kind of event is published. *)
Theorem readCallback_event_only_if (handle : addr) (nread : Z)
    (buf : Uv.uv_buf_t) (w : World) :
  exists w' e,
    Stream.readCallback handle nread buf w = Some (tt, w') /\
    emitted w w' = [(handle, e)] /\
    (e = EndEvent -> nread = Uv.UV_EOF) /\
    (forall d n, e = DataEvent d n ->
       0 < nread /\ n = nread /\ d = Uv.base buf) /\
    (forall c, e = ErrorEvent c ->
       c = nread /\ nread <= 0 /\ nread <> Uv.UV_EOF) /\
    e <> WriteEvent /\ e <> ShutdownEvent /\ e <> ListenEvent.
Proof.
  eexists _, (if decide (nread = Uv.UV_EOF) then EndEvent
              else if decide (nread > 0) then DataEvent (Uv.base buf) nread
              else ErrorEvent nread).
  split; [apply readCallback_run |].
  repeat case_decide; (split; [by apply emitted_app |]);
    split_and!; try done; intros; simplify_eq; split_and!; first [done | lia].
Qed.

(** ** Runs of callbacks *)

Lemma count_filter_app {A} (P : A -> Prop) `{!forall x, Decision (P x)}
    (l k : list A) :
  List.length (filter P (l ++ k)) =
  (List.length (filter P l) + List.length (filter P k))%nat.
Proof. by rewrite filter_app, length_app. Qed.

Lemma owners_none (b : buffer) (e : Event) :
  owned_by e = None -> owners b [e] = 0%nat.
Proof.
  intros H. unfold owners. rewrite filter_cons, filter_nil.
  rewrite decide_False; [done | congruence].
Qed.

(** One read completion: one publication on the stream, and the buffer
    either released or owned by the event. *)
Lemma readCallback_step (handle : addr) (nread : Z) (buf : Uv.uv_buf_t)
    (w : World) :
  exists w' e fr,
    Stream.readCallback handle nread buf w = Some (tt, w') /\
    published w' = published w ++ [(handle, e)] /\
    freed w' = freed w ++ fr /\
    (forall b,
       (List.length (filter (fun x => x = b) fr) + owners b [e])%nat =
       List.length (filter (fun x => x = b) (option_list (Uv.base buf)))).
Proof.
  rewrite readCallback_run.
  destruct (decide (nread = Uv.UV_EOF)); [| destruct (decide (nread > 0))].
  - eexists _, EndEvent, (option_list (Uv.base buf)).
    split_and!; try reflexivity. intros b. rewrite owners_none by done. lia.
  - eexists _, (DataEvent (Uv.base buf) nread), []. split_and!; try reflexivity.
    { cbn. by rewrite app_nil_r. }
    intros b. unfold owners. rewrite !filter_cons, !filter_nil. cbn [owned_by].
    destruct (Uv.base buf) as [b' |]; cbn [option_list option_rect].
    + rewrite filter_cons, filter_nil.
      destruct (decide (b' = b)) as [-> |].
      * by rewrite !decide_True.
      * by rewrite !decide_False by congruence.
    + by rewrite decide_False.
  - eexists _, (ErrorEvent nread), (option_list (Uv.base buf)).
    split_and!; try reflexivity. intros b. rewrite owners_none by done. lia.
Qed.

Lemma read_completions_run (handle : addr) (cs : list (Z * Uv.uv_buf_t)) :
  forall w,
  exists w' evs fr,
    read_completions handle cs w = Some (tt, w') /\
    published w' = published w ++ evs /\
    freed w' = freed w ++ fr /\
    List.length evs = List.length cs /\
    Forall (fun p => p.1 = handle) evs /\
    (forall b,
       (List.length (filter (fun x => x = b) fr) + owners b evs.*2)%nat =
       List.length (filter (fun x => x = b) (buffers cs))).
Proof.
  induction cs as [| [nread buf] cs IH]; intros w.
  - exists w, [], []. split_and!; try done; by rewrite app_nil_r.
  - destruct (readCallback_step handle nread buf w)
      as (w1 & e & fr1 & Hr & Hp1 & Hf1 & Hc1).
    destruct (IH w1) as (w' & evs & fr & Hrs & Hp & Hf & Hl & Hh & Hc).
    exists w', ((handle, e) :: evs), (fr1 ++ fr).
    unfold read_completions in *. cbn [for_each]. unfold bind at 1. cbn [fst snd].
    rewrite Hr, Hrs. split_and!.
    + reflexivity.
    + by rewrite Hp, Hp1, <- app_assoc.
    + by rewrite Hf, Hf1, <- app_assoc.
    + cbn. by rewrite Hl.
    + by constructor.
    + intros b. specialize (Hc b). specialize (Hc1 b).
      cbn [buffers flat_map snd]. fold (buffers cs).
      rewrite !count_filter_app. unfold owners in *. cbn [fmap list_fmap snd].
      change (filter (fun e0 => owned_by e0 = Some b) (e :: evs.*2))
        with (filter (fun e0 => owned_by e0 = Some b) ([e] ++ evs.*2)).
      rewrite count_filter_app. lia.
Qed.

(** X2: a run of read completions publishes one event per completion, all on
    the stream, and accounts for every buffer it is handed: the number of
    times a buffer is released by the handler plus the number of published
    events that own it is the number of times it was handed in.  A buffer
    handed in once is thus released once or delivered once, never both, and
    a buffer that was not handed in is neither released nor delivered. *)
Theorem read_completions_account (handle : addr)
    (cs : list (Z * Uv.uv_buf_t)) (w : World) :
  exists w',
    read_completions handle cs w = Some (tt, w') /\
    List.length (emitted w w') = List.length cs /\
    Forall (fun p => p.1 = handle) (emitted w w') /\
    (forall b,
       (releases b w w' + owners b (emitted w w').*2)%nat =
       List.length (filter (fun x => x = b) (buffers cs))).
Proof.
  destruct (read_completions_run handle cs w)
    as (w' & evs & fr & Hr & Hp & Hf & Hl & Hh & Hc).
  exists w'. rewrite (emitted_app _ _ _ Hp). split_and!; try done.
  intros b. rewrite (releases_app _ _ _ _ Hf). apply Hc.
Qed.

Lemma listen_completions_run (handle : addr) (ss : list Z) :
  forall w,
  exists w' evs,
    listen_completions handle ss w = Some (tt, w') /\
    published w' = published w ++ evs /\
    freed w' = freed w /\
    List.length evs = List.length ss /\
    on handle evs = evs.*2 /\
    count KListen evs.*2 = List.length (filter (fun s => s = 0) ss) /\
    count KError evs.*2 = List.length (filter (fun s => s <> 0) ss).
Proof.
  induction ss as [| s ss IH]; intros w.
  - exists w, []. split_and!; try done. by rewrite app_nil_r.
  - set (e := if decide (s <> 0) then ErrorEvent s else ListenEvent).
    set (w1 := set_published (published w ++ [(handle, e)]) w).
    assert (Stream.listenCallback handle s w = Some (tt, w1)) as Hr.
    { unfold Stream.listenCallback, Handle.publish, modify, w1, e.
      by case_decide. }
    destruct (IH w1) as (w' & evs & Hrs & Hp & Hf & Hl & Ho & Hkl & Hke).
    exists w', ((handle, e) :: evs).
    unfold listen_completions in *. cbn [for_each]. unfold bind at 1.
    rewrite Hr, Hrs. split_and!.
    + reflexivity.
    + rewrite Hp. cbn. by rewrite <- app_assoc.
    + by rewrite Hf.
    + cbn. by rewrite Hl.
    + unfold on in *. rewrite filter_cons. cbn [fst].
      rewrite decide_True by done. cbn. by rewrite Ho.
    + unfold count in *. cbn [fmap list_fmap snd]. rewrite !filter_cons.
      unfold e. repeat case_decide; cbn in *; try done; by rewrite Hkl.
    + unfold count in *. cbn [fmap list_fmap snd]. rewrite !filter_cons.
      unfold e. repeat case_decide; cbn in *; try done; by rewrite Hke.
Qed.

(** X3: a run of readiness callbacks publishes one event per callback, all on
    the stream: as many ListenEvents as there are statuses 0 and as many
    ErrorEvents as there are nonzero statuses; it releases no buffer. *)
Theorem listen_completions_count (handle : addr) (ss : list Z) (w : World) :
  exists w',
    listen_completions handle ss w = Some (tt, w') /\
    List.length (emitted w w') = List.length ss /\
    on handle (emitted w w') = (emitted w w').*2 /\
    count KListen (emitted w w').*2 = List.length (filter (fun s => s = 0) ss) /\
    count KError (emitted w w').*2 = List.length (filter (fun s => s <> 0) ss) /\
    freed w' = freed w.
Proof.
  destruct (listen_completions_run handle ss w)
    as (w' & evs & Hr & Hp & Hf & Hl & Ho & Hkl & Hke).
  exists w'. by rewrite (emitted_app _ _ _ Hp).
Qed.

(** ** What an action leaves alone *)

Lemma published_more_refl (w : World) : published_more w w.
Proof. unfold published_more. split_and!; try done. exists []. by rewrite app_nil_r. Qed.

Lemma published_more_trans (w1 w2 w3 : World) :
  published_more w1 w2 -> published_more w2 w3 -> published_more w1 w3.
Proof.
  intros (Hn1 & Hs1 & Hr1 & Hp1 & Hf1 & l1 & H1)
         (Hn2 & Hs2 & Hr2 & Hp2 & Hf2 & l2 & H2).
  unfold published_more. split_and!; try congruence.
  exists (l1 ++ l2). by rewrite H2, H1, <- app_assoc.
Qed.

Lemma listener_more (s : addr) (e : Event) (w : World) :
  exists w', listener s e w = Some (tt, w') /\ published_more w w'.
Proof.
  destruct (streams w !! s) as [so |] eqn:E.
  - rewrite listener_live by (by exists so). eexists. split; [reflexivity |].
    unfold published_more. cbn. split_and!; try done. by eexists.
  - rewrite listener_dead by done. eexists. split; [reflexivity |].
    apply published_more_refl.
Qed.

(** The listeners of a registry, called in turn, never fail and only
    publish. *)
Lemma calls_more (e : Event) (ls : list (EventKind * Listener)) :
  forall w,
  exists w',
    for_each (fun kl => call kl.2 e) ls w = Some (tt, w') /\
    published_more w w'.
Proof.
  induction ls as [| [k [s]] ls IH]; intros w.
  - exists w. split; [reflexivity | apply published_more_refl].
  - destruct (listener_more s e w) as (w1 & H1 & M1).
    destruct (IH w1) as (w' & H' & M').
    exists w'. cbn [for_each call snd]. unfold bind. rewrite H1.
    split; [exact H' |]. by eapply published_more_trans.
Qed.

Lemma publish_frame (r : addr) (e : Event) (w : World) :
  exists w',
    Request.publish r e w = Some (tt, w') /\
    next w' = next w /\ streams w' = streams w /\ pending w' = pending w /\
    freed w' = freed w /\
    (exists l, published w' = published w ++ l) /\
    (forall r', r' <> r -> requests w' !! r' = requests w !! r').
Proof.
  destruct (requests w !! r) as [o |] eqn:E.
  - rewrite (publish_run _ _ _ _ E).
    match goal with |- context [for_each ?f ?ls ?w0] =>
      destruct (calls_more e ls w0) as (w' & H' & (Hn & Hs & Hr & Hp & Hf & l & Hl))
    end.
    exists w'. split; [exact H' |]. cbn in *. split_and!; try done.
    + exists ([(r, e)] ++ l). by rewrite Hl, <- app_assoc.
    + intros r' Hne. rewrite Hr. by apply lookup_insert_ne.
  - unfold Request.publish, bind, modify, gets, ret. cbn. rewrite E.
    eexists. split; [reflexivity |]. cbn. split_and!; try done. by eexists.
Qed.

Lemma queued_same (r : addr) (o : Uv.op) (w w' : World) :
  pending w' = pending w -> queued r o w -> queued r o w'.
Proof. unfold queued. by intros ->. Qed.

Lemma queued_app (r : addr) (o : Uv.op) (w w' : World) (q : list (addr * Uv.op)) :
  pending w' = pending w ++ q -> queued r o w -> queued r o w'.
Proof.
  unfold queued. intros -> [i H]. exists i. by apply list_find_app_l.
Qed.

Lemma list_find_cons {A} (P : A -> Prop) `{!forall x, Decision (P x)}
    (a : A) (l : list A) :
  list_find P (a :: l) =
  if decide (P a) then Some (0%nat, a) else prod_map S id <$> list_find P l.
Proof. reflexivity. Qed.

(** Taking an entry that does not satisfy [P] off a list leaves the first
    entry that satisfies [P] the same. *)
Lemma list_find_delete_other {A} (P : A -> Prop) `{!forall x, Decision (P x)}
    (l : list A) :
  forall j y i x,
    l !! j = Some y -> ~ P y -> list_find P l = Some (i, x) ->
    exists i', list_find P (delete j l) = Some (i', x).
Proof.
  induction l as [| a l IH]; intros j y i x Hj Hy Hf; [done |].
  rewrite list_find_cons in Hf. destruct j as [| j].
  - injection Hj as ->. rewrite decide_False in Hf by done.
    change (delete 0%nat (y :: l)) with l.
    destruct (list_find P l) as [[i0 x0] |]; [| done].
    injection Hf as <- <-. by exists i0.
  - change (delete (S j) (a :: l)) with (a :: delete j l).
    rewrite list_find_cons. case_decide.
    + injection Hf as <- <-. by exists 0%nat.
    + destruct (list_find P l) as [[i0 x0] |] eqn:E; [| done].
      injection Hf as <- <-.
      destruct (IH j y i0 x0 Hj Hy eq_refl) as [i' ->]. by eexists.
Qed.

Lemma exec_frame (rc : Z) (o : Uv.op) (r : addr) (w : World) :
  exists w',
    Request.exec rc o r w = Some (tt, w') /\
    next w' = next w /\ streams w' = streams w /\ freed w' = freed w /\
    (exists l, published w' = published w ++ l) /\
    (exists q, pending w' = pending w ++ q) /\
    (forall r', r' <> r -> requests w' !! r' = requests w !! r').
Proof.
  unfold Request.exec. case_decide.
  - eexists. split; [reflexivity |]. cbn. split_and!; try done.
    + exists []. by rewrite app_nil_r.
    + by eexists.
  - destruct (publish_frame r (ErrorEvent rc) w)
      as (w' & H' & Hn & Hs & Hp & Hf & Hl & Hr).
    exists w'. split_and!; try done. exists []. by rewrite app_nil_r.
Qed.

Lemma frame_refl (T : addr -> Prop) (w : World) : frame T w w.
Proof.
  unfold frame. split_and!; try done; exists []; by rewrite app_nil_r.
Qed.

Lemma frame_trans (T1 T2 : addr -> Prop) (w w1 w2 : World) :
  frame T1 w w1 -> frame T2 w1 w2 -> frame (fun r => T1 r \/ T2 r) w w2.
Proof.
  intros (Hn1 & [l1 Hl1] & [f1 Hf1] & Hr1 & Hq1)
         (Hn2 & [l2 Hl2] & [f2 Hf2] & Hr2 & Hq2).
  unfold frame. split_and!.
  - lia.
  - exists (l1 ++ l2). by rewrite Hl2, Hl1, <- app_assoc.
  - exists (f1 ++ f2). by rewrite Hf2, Hf1, <- app_assoc.
  - intros r Hlt Ht. rewrite Hr2, Hr1; [done | done | tauto | lia | tauto].
  - intros r o Ht Hq. apply Hq2; [tauto |]. apply Hq1; [tauto | done].
Qed.

Lemma frame_weaken (T T' : addr -> Prop) (w w' : World) :
  (forall r, T r -> T' r) -> frame T w w' -> frame T' w w'.
Proof.
  intros HT (Hn & Hl & Hf & Hr & Hq). unfold frame. split_and!; try done.
  - intros r Hlt Ht. apply Hr; [done |]. intros ?. apply Ht. by apply HT.
  - intros r o Ht. apply Hq. intros ?. apply Ht. by apply HT.
Qed.

(** A world that differs by its logs only. *)
Lemma frame_logs (T : addr -> Prop) (w w' : World) :
  next w' = next w -> requests w' = requests w -> pending w' = pending w ->
  (exists l, published w' = published w ++ l) ->
  (exists f, freed w' = freed w ++ f) ->
  frame T w w'.
Proof.
  intros Hn Hr Hp Hl Hf. unfold frame. split_and!; try done.
  - lia.
  - intros. by rewrite Hr.
  - intros r o _. by apply queued_same.
Qed.

Ltac grown :=
  first [ by eexists; cbn; reflexivity
        | by exists []; cbn; rewrite app_nil_r ].

Ltac logs_only := apply frame_logs; cbn; first [reflexivity | grown].

(** Creating a request, registering the relays and handing the operation
    to the native layer touches no request that existed before. *)
Lemma issue_frame (T : addr -> Prop) (rc : Z) (o : Uv.op) (t : RequestType)
    (s loop : addr) (w : World) :
  exists w',
    Request.exec rc o (next w) (armed t s loop w) = Some (tt, w') /\
    streams w' = streams w /\ freed w' = freed w /\ frame T w w'.
Proof.
  destruct (exec_frame rc o (next w) (armed t s loop w))
    as (w' & H' & Hn & Hs & Hf & Hl & [q Hq] & Hr).
  exists w'. split_and!; try done. unfold frame. split_and!.
  - rewrite Hn. cbn. lia.
  - exact Hl.
  - exists []. by rewrite app_nil_r, Hf.
  - intros r Hlt _. rewrite Hr by lia. cbn. apply lookup_insert_ne. lia.
  - intros r o' _ Hq'. by eapply queued_app.
Qed.

Lemma write_frame (T : addr -> Prop) (rc : Z) (this : addr)
    (data : option buffer) (length : Z) (w w' : World) :
  Stream.write rc this data length w = Some (tt, w') ->
  streams w' = streams w /\ freed w' = freed w /\ frame T w w'.
Proof.
  destruct (streams w !! this) as [so |] eqn:E.
  - rewrite (write_run _ _ _ _ _ _ E).
    destruct (issue_frame T rc (Uv.uv_write this [Uv.uv_buf_init data length])
                WriteReq this (s_loop so) w) as (w1 & -> & H).
    by intros [= <-].
  - unfold Stream.write, shared_from_this, lock, gets, bind. by rewrite E.
Qed.

Lemma shutdown_frame (T : addr -> Prop) (rc : Z) (this : addr) (w w' : World) :
  Stream.shutdown rc this w = Some (tt, w') ->
  streams w' = streams w /\ freed w' = freed w /\ frame T w w'.
Proof.
  destruct (streams w !! this) as [so |] eqn:E.
  - rewrite (shutdown_run _ _ _ _ E).
    destruct (issue_frame T rc (Uv.uv_shutdown this) ShutdownReq this
                (s_loop so) w) as (w1 & -> & H).
    by intros [= <-].
  - unfold Stream.shutdown, shared_from_this, lock, gets, bind. by rewrite E.
Qed.

Lemma complete_frame (req : addr) (status : Z) (w : World) :
  exists w',
    complete req status w = Some (tt, w') /\
    streams w' = streams w /\ freed w' = freed w /\
    frame (fun r => req = r) w w'.
Proof.
  unfold complete, bind, gets, modify.
  destruct (list_find _ (pending w)) as [[i [r' o]] |] eqn:E.
  - pose proof (proj1 (list_find_Some _ _ _ _) E) as (Hi & Hr' & _).
    cbn in Hr'. subst r'.
    unfold Request.defaultCallback.
    set (e := if decide (status = 0) then Request.success o else ErrorEvent status).
    destruct (publish_frame req e (set_pending (delete i (pending w)) w))
      as (w' & H' & Hn & Hs & Hp & Hf & Hl & Hr).
    exists w'. split.
    { unfold e in H'. by case_decide. }
    cbn in *. split_and!; try done. unfold frame. split_and!.
    + lia.
    + exact Hl.
    + exists []. by rewrite app_nil_r, Hf.
    + intros r _ Hne. apply Hr. congruence.
    + intros r o' Hne [i0 Hq]. unfold queued. rewrite Hp.
      eapply (list_find_delete_other _ _ i (req, o)); [done | | done].
      cbn. congruence.
  - exists w. split_and!; try done. apply frame_refl.
Qed.

Lemma perform_frame (a : action) (w w' : World) :
  perform a w = Some (tt, w') -> frame (fun r => completes r a) w w'.
Proof.
  destruct a; cbn [perform completes].
  - intros H. by apply (write_frame (fun _ => False)) in H as (_ & _ & H).
  - unfold Stream.write_owned, bind.
    destruct (Stream.write rc this data length w) as [[[] w1] |] eqn:E; [| done].
    apply (write_frame (fun _ => False)) in E as (_ & _ & H).
    intros H'. apply (frame_weaken (fun r => False \/ False)); [tauto |].
    eapply frame_trans; [exact H |].
    destruct data; injection H' as <-; [logs_only | apply frame_refl].
  - unfold bind. rewrite tryWrite_run.
    case_decide; intros [= <-]; [logs_only | apply frame_refl].
  - unfold Stream.tryWrite_owned, bind. rewrite tryWrite_run.
    case_decide; destruct data; intros [= <-];
      first [logs_only | apply frame_refl].
  - intros H. by apply (shutdown_frame (fun _ => False)) in H as (_ & _ & H).
  - destruct (complete_frame req status w) as (w1 & -> & _ & _ & H).
    intros [= <-]. eapply frame_weaken; [| exact H]. done.
  - rewrite readCallback_run. intros [= <-]. repeat case_decide; logs_only.
  - unfold Stream.listenCallback, Handle.publish, modify.
    case_decide; intros [= <-]; logs_only.
  - intros [= <-]. unfold frame. cbn. split_and!; try done; try grown. lia.
  - intros [= <-]. logs_only.
Qed.

Lemma run_frame (acts : list action) :
  forall w w',
    run acts w = Some (tt, w') ->
    frame (fun r => Exists (completes r) acts) w w'.
Proof.
  induction acts as [| a acts IH]; intros w w' H.
  - injection H as <-. apply frame_refl.
  - unfold run in H. cbn [for_each] in H. unfold bind in H.
    destruct (perform a w) as [[[] w1] |] eqn:E; [| done].
    eapply frame_weaken; [| eapply frame_trans;
      [apply (perform_frame _ _ _ E) | apply (IH _ _ H)]].
    intros r [? | ?]; [by apply Exists_cons_hd | by apply Exists_cons_tl].
Qed.

Lemma perform_wf (a : action) (w w' : World) :
  wf w -> perform a w = Some (tt, w') -> wf w'.
Proof.
  intros Hw. destruct a; cbn [perform].
  - apply (wf_invariant w w' Hw).
  - unfold Stream.write_owned, bind.
    destruct (Stream.write rc this data length w) as [[[] w1] |] eqn:E; [| done].
    apply (wf_invariant w w1 Hw) in E.
    destruct data; intros [= <-]; [by apply (wf_same w1) | done].
  - unfold bind. rewrite tryWrite_run.
    case_decide; intros [= <-]; [by apply (wf_same w) | done].
  - unfold Stream.tryWrite_owned, bind. rewrite tryWrite_run.
    case_decide; destruct data; intros [= <-]; by apply (wf_same w).
  - apply (wf_invariant w w' Hw).
  - apply (wf_invariant w w' Hw).
  - apply (wf_invariant w w' Hw).
  - apply (wf_invariant w w' Hw).
  - unfold bind. destruct (Loop.resource_stream loop w) as [[a w1] |] eqn:E; [| done].
    intros [= <-]. by apply (wf_invariant w w1 Hw) in E.
  - apply (wf_invariant w w' Hw).
Qed.

(** What a frame keeps of a request that it does not touch. *)
Lemma frame_keeps (T : addr -> Prop) (r s : addr) (t : RequestType)
    (o : Uv.op) (w w' : World) :
  frame T w w' -> ~ T r -> wf w ->
  registered r s t w -> queued r o w ->
  registered r s t w' /\ queued r o w'.
Proof.
  intros (_ & _ & _ & Hreq & Hqueue) HT (_ & Hwr & _) [loop Hr] Hq. split.
  - exists loop. rewrite Hreq; [done | | done].
    apply (map_Forall_lookup_1 _ _ _ _ Hwr Hr).
  - by apply Hqueue.
Qed.

Lemma not_completed (r : addr) (acts : list action) :
  Forall (fun a => ~ completes r a) acts -> ~ Exists (completes r) acts.
Proof.
  intros Hacts Hex. apply Exists_exists in Hex as (a & Hin & Hc).
  by apply (proj1 (Forall_forall _ _) Hacts a Hin).
Qed.

(** ** Runs of actions *)

(** Every world that a run of actions reaches from a well-formed world,
    the world of a fresh loop for one, is well-formed: no operation of the
    stream, no callback and no creation or destruction hands out the
    identity of a live object or of a queued request again. *)
Lemma run_wf (acts : list action) :
  forall w w', wf w -> run acts w = Some (tt, w') -> wf w'.
Proof.
  induction acts as [| a acts IH]; intros w w' Hw H.
  - by injection H as <-.
  - unfold run in H. cbn [for_each] in H. unfold bind in H.
    destruct (perform a w) as [[[] w1] |] eqn:E; [| done].
    eapply IH; [| exact H]. by eapply perform_wf.
Qed.

(** X8: a request that carries its two relays and waits in the queue is left
    as it is by every run of actions that does not complete it: further
    writes and shutdowns on any stream, immediate writes, read and
    readiness callbacks, completions of other requests, creation and
    destruction of streams. *)
Theorem run_keeps_pending (r s : addr) (t : RequestType) (o : Uv.op)
    (acts : list action) (w w' : World) :
  wf w -> registered r s t w -> queued r o w ->
  Forall (fun a => ~ completes r a) acts ->
  run acts w = Some (tt, w') ->
  registered r s t w' /\ queued r o w'.
Proof.
  intros Hw Hr Hq Hacts Hrun.
  eapply frame_keeps; [by apply run_frame | | done..].
  by apply not_completed.
Qed.

(** X9: a write that the native layer accepted, then any run of actions that
    does not complete it, then its completion: if the stream is still
    alive the completion puts exactly the outcome on the stream, once; if
    the stream was destroyed in between, the request's own publication is
    all there is. *)
Theorem write_outcome_after_run (this : addr) (data : option buffer)
    (length : Z) (acts : list action) (status : Z) (w w1 w2 : World)
    (so : StreamObj) :
  wf w -> streams w !! this = Some so ->
  let r := next w in
  let o := Uv.uv_write this [Uv.uv_buf_init data length] in
  Forall (fun a => ~ completes r a) acts ->
  Stream.write 0 this data length w = Some (tt, w1) ->
  run acts w1 = Some (tt, w2) ->
  exists w3,
    complete r status w2 = Some (tt, w3) /\
    (is_Some (streams w2 !! this) ->
       emitted w2 w3 = [(r, outcome o status); (this, outcome o status)] /\
       on this (emitted w2 w3) = [outcome o status]) /\
    (streams w2 !! this = None ->
       emitted w2 w3 = [(r, outcome o status)] /\
       on this (emitted w2 w3) = []).
Proof.
  intros Hw Hs r o Hacts Hwrite Hrun.
  assert (Hne : this <> r) by (apply wf_live; [done | by exists so]).
  destruct (exec_accepted o this (s_loop so) w Hw)
    as (w1' & He & Hr & Hq & _).
  rewrite (write_run _ _ _ _ _ _ Hs) in Hwrite.
  unfold o in He; cbn [op_type] in He. rewrite He in Hwrite.
  injection Hwrite as <-.
  assert (Hw1 : wf w1').
  { destruct (wf_invariant w w1' Hw) as (_ & _ & Hwr & _).
    apply (Hwr 0 this data length).
    rewrite (write_run _ _ _ _ _ _ Hs). exact He. }
  destruct (frame_keeps _ r this WriteReq o w1' w2 (run_frame acts w1' w2 Hrun))
    as (Hr2 & Hq2); [by apply not_completed | done | by eexists | done |].
  destruct (streams w2 !! this) as [so2 |] eqn:E.
  - destruct (complete_live r this o status w2 Hr2 Hq2) as (w3 & Hc & Hp & _).
    { by exists so2. }
    exists w3. split; [exact Hc |]. split; [| done].
    intros _. rewrite (emitted_app _ _ _ Hp). split; [done |]. by apply on_pair.
  - destruct (complete_dead r this o status w2 Hr2 Hq2 E) as (w3 & Hc & Hp & _).
    exists w3. split; [exact Hc |]. split; [by intros [? ?] |].
    intros _. rewrite (emitted_app _ _ _ Hp). split; [done |]. by apply on_other.
Qed.

(** ** A destroyed stream stays destroyed *)

Lemma perform_dead (a : action) (s : addr) (w w' : World) :
  (s < next w)%nat -> streams w !! s = None ->
  perform a w = Some (tt, w') -> streams w' !! s = None.
Proof.
  intros Hlt Hs. destruct a; cbn [perform].
  - intros H. apply (write_frame (fun _ => False)) in H as (-> & _). done.
  - unfold Stream.write_owned, bind.
    destruct (Stream.write rc this data length w) as [[[] w1] |] eqn:E; [| done].
    apply (write_frame (fun _ => False)) in E as (E & _).
    destruct data; intros [= <-]; cbn; by rewrite E.
  - unfold bind. rewrite tryWrite_run. by case_decide; intros [= <-].
  - unfold Stream.tryWrite_owned, bind. rewrite tryWrite_run.
    by case_decide; destruct data; intros [= <-].
  - intros H. apply (shutdown_frame (fun _ => False)) in H as (-> & _). done.
  - destruct (complete_frame req status w) as (w1 & -> & E & _).
    intros [= <-]. by rewrite E.
  - rewrite readCallback_run. intros [= <-]. by repeat case_decide.
  - unfold Stream.listenCallback, Handle.publish, modify.
    by case_decide; intros [= <-].
  - intros [= <-]. cbn. rewrite lookup_insert_ne by lia. done.
  - intros [= <-]. cbn. apply lookup_delete_None. by right.
Qed.

Lemma run_dead (acts : list action) (s : addr) :
  forall w w',
    (s < next w)%nat -> streams w !! s = None ->
    run acts w = Some (tt, w') -> streams w' !! s = None.
Proof.
  induction acts as [| a acts IH]; intros w w' Hlt Hs H.
  - by injection H as <-.
  - unfold run in H. cbn [for_each] in H. unfold bind in H.
    destruct (perform a w) as [[[] w1] |] eqn:E; [| done].
    apply (IH w1 w'); [| by eapply perform_dead | exact H].
    destruct (perform_frame _ _ _ E) as (Hn & _). lia.
Qed.

(** X14: once its stream is destroyed, a queued request never reaches a stream
    again: whatever run of actions follows the destruction, new streams
    created on the loop included, the completion of the request publishes
    on the request alone. *)
Theorem destroyed_never_hears (r s : addr) (o : Uv.op) (acts : list action)
    (status : Z) (w w' : World) :
  wf w -> registered r s (op_type o) w -> queued r o w ->
  (s < next w)%nat -> streams w !! s = None ->
  Forall (fun a => ~ completes r a) acts ->
  run acts w = Some (tt, w') ->
  exists w'',
    complete r status w' = Some (tt, w'') /\
    emitted w' w'' = [(r, outcome o status)] /\
    (forall a, a <> r -> on a (emitted w' w'') = []) /\
    streams w'' = streams w' /\ freed w'' = freed w'.
Proof.
  intros Hw Hr Hq Hlt Hs Hacts Hrun.
  destruct (frame_keeps _ r s (op_type o) o w w' (run_frame acts w w' Hrun))
    as (Hr' & Hq'); [by apply not_completed | done..|].
  pose proof (run_dead acts s w w' Hlt Hs Hrun) as Hs'.
  destruct (complete_dead r s o status w' Hr' Hq' Hs')
    as (w'' & Hc & Hp & Hst & Hf & _).
  exists w''. rewrite (emitted_app _ _ _ Hp). split_and!; try done.
  intros a Ha. by apply on_other.
Qed.

(** ** Shutdown *)

(** X7: a call to shutdown on a live stream creates a fresh Shutdown request on
    the loop of the stream, registers on it exactly two one-shot listeners,
    for ErrorEvent and for ShutdownEvent, both relays to the stream, and
    queues the native shutdown without publishing anything.  Whenever the
    completion comes while the stream lives, status 0 puts exactly one
    ShutdownEvent on the stream and a nonzero status exactly one ErrorEvent
    with that status.  A native shutdown refused on the spot puts exactly
    one ErrorEvent on the stream and queues nothing. *)
Theorem shutdown_relays_outcome (this : addr) (w : World) (so : StreamObj) :
  wf w -> streams w !! this = Some so ->
  let r := next w in
  let o := Uv.uv_shutdown this in
  (exists w1,
     Stream.shutdown 0 this w = Some (tt, w1) /\
     requests w !! r = None /\
     requests w1 !! r =
       Some (mk_request ShutdownReq (s_loop so)
               [(KError, Relay this); (KShutdown, Relay this)]) /\
     pending w1 = pending w ++ [(r, o)] /\
     queued r o w1 /\
     emitted w w1 = [] /\
     streams w1 = streams w) /\
  (forall w' status,
     registered r this ShutdownReq w' -> queued r o w' ->
     is_Some (streams w' !! this) ->
     exists w2,
       complete r status w' = Some (tt, w2) /\
       (status = 0 -> on this (emitted w' w2) = [ShutdownEvent]) /\
       (status <> 0 -> on this (emitted w' w2) = [ErrorEvent status])) /\
  (forall rc, rc <> 0 ->
     exists w1,
       Stream.shutdown rc this w = Some (tt, w1) /\
       on this (emitted w w1) = [ErrorEvent rc] /\
       pending w1 = pending w).
Proof.
  intros Hw Hs r o.
  assert (Hne : this <> r) by (apply wf_live; [done | by exists so]).
  split_and!.
  - destruct (exec_accepted o this (s_loop so) w Hw)
      as (w1 & He & Hr & Hq & Hp & Hl & Hst & _).
    exists w1. rewrite (shutdown_run _ _ _ _ Hs). split_and!; try done.
    + apply (wf_fresh w Hw).
    + apply emitted_app. by rewrite app_nil_r.
  - intros w' status Hr Hq Hl.
    destruct (complete_live r this o status w' Hr Hq Hl) as (w2 & Hc & Hp & _).
    exists w2. split; [exact Hc |].
    rewrite (emitted_app _ _ _ Hp), (on_pair _ _ _ Hne). unfold outcome.
    split; intros Hst; [by rewrite decide_True | by rewrite decide_False].
  - intros rc Hrc.
    destruct (exec_refused rc o this (s_loop so) w Hrc) as (w1 & He & Hp & Hq & _).
    { by exists so. }
    exists w1. rewrite (shutdown_run _ _ _ _ Hs). split; [exact He |].
    split; [| exact Hq]. by rewrite (emitted_app _ _ _ Hp), (on_pair _ _ _ Hne).
Qed.

(** ** Who may call what *)

(** X11: write and shutdown return normally exactly when a [shared_ptr] still
    owns the stream they are called on; on a stream that nobody owns they
    throw.  Their success does not depend on what the native layer
    answers. *)
Theorem write_shutdown_need_owner (rc : Z) (this : addr)
    (data : option buffer) (length : Z) (w : World) :
  (is_Some (Stream.write rc this data length w) <-> is_Some (streams w !! this)) /\
  (is_Some (Stream.write_owned rc this data length w) <->
     is_Some (streams w !! this)) /\
  (is_Some (Stream.shutdown rc this w) <-> is_Some (streams w !! this)).
Proof.
  destruct (streams w !! this) as [so |] eqn:E.
  - destruct (issue_frame (fun _ => False) rc
                (Uv.uv_write this [Uv.uv_buf_init data length])
                WriteReq this (s_loop so) w) as (w1 & H1 & _).
    destruct (issue_frame (fun _ => False) rc (Uv.uv_shutdown this)
                ShutdownReq this (s_loop so) w) as (w2 & H2 & _).
    unfold Stream.write_owned, bind.
    rewrite (write_run _ _ _ _ _ _ E), (shutdown_run _ _ _ _ E), H1, H2.
    split_and!; (split; [by eexists |]); intros _; [by eexists | | by eexists].
    destruct data; by eexists.
  - unfold Stream.write_owned, Stream.write, Stream.shutdown,
      shared_from_this, lock, gets, bind. rewrite E.
    split_and!; split; by intros [? ?].
Qed.

(** ** The two shapes of a write *)

(** X5: the overload of write on a uniquely-owned buffer does what write on the
    bare pointer does, publication for publication and request for request,
    and then releases the buffer once (not at all when the pointer is
    null); write on the bare pointer releases nothing. *)
Theorem write_overloads_agree (rc : Z) (this : addr) (data : option buffer)
    (length : Z) (w : World) (so : StreamObj) :
  streams w !! this = Some so ->
  exists w1,
    Stream.write rc this data length w = Some (tt, w1) /\
    freed w1 = freed w /\
    Stream.write_owned rc this data length w =
      Some (tt, set_freed (freed w ++ option_list data) w1).
Proof.
  intros Hs. unfold Stream.write_owned, bind.
  rewrite (write_run _ _ _ _ _ _ Hs).
  destruct (issue_frame (fun _ => False) rc
              (Uv.uv_write this [Uv.uv_buf_init data length])
              WriteReq this (s_loop so) w) as (w1 & -> & _ & Hf & _).
  exists w1. split_and!; try done.
  destruct data; cbn; rewrite <- Hf; [done |].
  rewrite app_nil_r. by destruct w1.
Qed.

(** X4: the overload of tryWrite on a uniquely-owned buffer returns the count
    and publishes the events of tryWrite on the bare pointer, and then
    releases the buffer once (not at all when the pointer is null);
    tryWrite on the bare pointer releases nothing and touches neither the
    requests nor the queue. *)
Theorem tryWrite_overloads_agree (native : Z) (this : addr)
    (data : option buffer) (length : Z) (w : World) :
  exists bw w1,
    Stream.tryWrite native this data length w = Some (bw, w1) /\
    published_more w w1 /\
    Stream.tryWrite_owned native this data length w =
      Some (bw, set_freed (freed w ++ option_list data) w1).
Proof.
  unfold Stream.tryWrite_owned, bind. rewrite tryWrite_run.
  case_decide; eexists _, _; (split; [reflexivity |]); split.
  - unfold published_more. cbn. split_and!; try done. by eexists.
  - destruct data; cbn; [done |]. by rewrite app_nil_r.
  - apply published_more_refl.
  - destruct data; cbn; [done |]. rewrite app_nil_r. by destruct w.
Qed.

(** ** The address helper, once more *)

(** X12: the port that the helper returns is a 16-bit value, whatever the
    native lookup wrote; and when the lookup fails the formatting function
    has no say: two formatting functions give the same result. *)
Theorem address_port_range (sizeof_ssto : Z)
    (f : addr -> Z -> Z * Uv.sockaddr * Z)
    (NameFunc NameFunc' : Uv.sockaddr -> Z -> Z * string) (this : addr)
    (w : World) :
  exists a,
    Stream.address sizeof_ssto f NameFunc this w = Some (a, w) /\
    0 <= a.2 < 65536 /\
    ((f this sizeof_ssto).1.1 <> 0 ->
       Stream.address sizeof_ssto f NameFunc' this w = Some (a, w)).
Proof.
  unfold Stream.address.
  destruct (f this sizeof_ssto) as [[err ssto] len]. cbn.
  destruct (NameFunc ssto len) as [err' name].
  destruct (NameFunc' ssto len) as [err'' name'].
  repeat case_decide; eexists; (split; [reflexivity |]); cbn;
    (split; [unfold Uv.ntohs;
             try pose proof (Z.mod_pos_bound (Uv.sin_port ssto).1 256);
             try pose proof (Z.mod_pos_bound (Uv.sin_port ssto).2 256); lia |]);
    intros; first [done | congruence].
Qed.


(** ** The further properties at work on concrete worlds *)

Example world2_written :
  Stream.write 0 1%nat (Some 7%nat) 4 world1 = Some (tt, world2).
Proof. reflexivity. Qed.

Lemma world2_wf : wf world2.
Proof. apply (bool_decide_unpack _). vm_compute. reflexivity. Defined.

Lemma readCallback_event_only_if_witness :
  exists w' e,
    Stream.readCallback 1%nat (-4) (Uv.mk_buf (Some 7%nat) 64) world1 = Some (tt, w') /\
    emitted world1 w' = [(1%nat, e)] /\
    (forall c, e = ErrorEvent c -> c = -4 /\ -4 <= 0 /\ -4 <> Uv.UV_EOF).
Proof.
  destruct (readCallback_event_only_if 1%nat (-4) (Uv.mk_buf (Some 7%nat) 64) world1)
    as (w' & e & Hr & He & _ & _ & Hc & _).
  exists w', e. split; [exact Hr |]. split; [exact He | exact Hc].
Defined.


Lemma run_keeps_pending_witness :
  match run [ARead 1%nat 5 (Uv.mk_buf (Some 9%nat) 64); AShutdown 0 1%nat;
             AComplete 3%nat 0; ATryWriteOwned (-3) 1%nat (Some 8%nat) 4;
             ADestroy 1%nat] world2 with
  | Some (_, w') =>
      registered 2%nat 1%nat WriteReq w' /\
      queued 2%nat (Uv.uv_write 1%nat [Uv.mk_buf (Some 7%nat) 4]) w'
  | None => False
  end.
Proof.
  destruct (run _ world2) as [[[] w'] |] eqn:E.
  - refine (run_keeps_pending 2%nat 1%nat WriteReq
              (Uv.uv_write 1%nat [Uv.mk_buf (Some 7%nat) 4]) _ world2 w'
              world2_wf _ _ _ E).
    + by eexists.
    + by exists 0%nat.
    + apply (bool_decide_unpack _). vm_compute. reflexivity.
  - vm_compute in E. discriminate E.
Defined.

Lemma write_outcome_after_run_witness :
  match run [AWrite 0 1%nat (Some 8%nat) 2; AComplete 3%nat (-1)] world2 with
  | Some (_, w2) =>
      exists w3,
        complete 2%nat 0 w2 = Some (tt, w3) /\
        on 1%nat (emitted w2 w3) = [WriteEvent]
  | None => False
  end.
Proof.
  destruct (run _ world2) as [[[] w2] |] eqn:E.
  - destruct (write_outcome_after_run 1%nat (Some 7%nat) 4
                [AWrite 0 1%nat (Some 8%nat) 2; AComplete 3%nat (-1)] 0
                world1 world2 w2 (mk_stream 0%nat) world1_wf eq_refl)
      as (w3 & Hc & Hlive & _).
    + apply (bool_decide_unpack _). vm_compute. reflexivity.
    + reflexivity.
    + exact E.
    + exists w3. split; [exact Hc |]. apply Hlive.
      assert (Hs : streams w2 !! 1%nat = Some (mk_stream 0%nat)).
      { vm_compute in E. injection E as <-. reflexivity. }
      rewrite Hs. by eexists.
  - vm_compute in E. discriminate E.
Defined.

Lemma shutdown_relays_outcome_witness :
  exists w1 w2,
    Stream.shutdown 0 1%nat world1 = Some (tt, w1) /\
    complete 2%nat 0 w1 = Some (tt, w2) /\
    on 1%nat (emitted w1 w2) = [ShutdownEvent].
Proof.
  destruct (shutdown_relays_outcome 1%nat world1 (mk_stream 0%nat)
              world1_wf eq_refl) as ((w1 & Hw & _ & Hr & _ & Hq & _ & Hs) & Hc & _).
  destruct (Hc w1 0) as (w2 & Hd & Hz & _).
  { eexists. exact Hr. }
  { exact Hq. }
  { rewrite Hs. by eexists. }
  exists w1, w2. split; [exact Hw |]. split; [exact Hd |]. by apply Hz.
Defined.

Lemma write_shutdown_need_owner_witness :
  is_Some (Stream.write 0 1%nat (Some 7%nat) 4 world1) /\
  ~ is_Some (Stream.shutdown 0 1%nat world0).
Proof.
  split.
  - apply (write_shutdown_need_owner 0 1%nat (Some 7%nat) 4 world1). by eexists.
  - intros H.
    apply (write_shutdown_need_owner 0 1%nat None 0 world0) in H.
    by destruct H.
Defined.

Lemma write_overloads_agree_witness :
  exists w1,
    Stream.write 0 1%nat (Some 7%nat) 4 world1 = Some (tt, w1) /\
    Stream.write_owned 0 1%nat (Some 7%nat) 4 world1 =
      Some (tt, set_freed [7%nat] w1).
Proof.
  destruct (write_overloads_agree 0 1%nat (Some 7%nat) 4 world1 (mk_stream 0%nat)
              eq_refl) as (w1 & H1 & _ & H2).
  exists w1. split; [exact H1 | exact H2].
Defined.

Lemma write_owned_queued_on_released_witness :
  exists w2,
    Stream.write_owned 0 1%nat (Some 7%nat) 4 world1 = Some (tt, w2) /\
    queued 2%nat (Uv.uv_write 1%nat [Uv.mk_buf (Some 7%nat) 4]) w2 /\
    7%nat ∈ freed w2.
Proof.
  exact (write_owned_queued_on_released 1%nat 7%nat 4 world1 (mk_stream 0%nat)
           world1_wf eq_refl).
Defined.

Lemma address_port_range_witness :
  exists a,
    Stream.address 128 (fun _ _ => (-9, Uv.mk_sockaddr (31, 144), 16))
      (fun _ _ => (0, "10.0.0.1"%string)) 1%nat world1 = Some (a, world1) /\
    Stream.address 128 (fun _ _ => (-9, Uv.mk_sockaddr (31, 144), 16))
      (fun _ _ => (-2, ""%string)) 1%nat world1 = Some (a, world1).
Proof.
  destruct (address_port_range 128
              (fun _ _ => (-9, Uv.mk_sockaddr (31, 144), 16))
              (fun _ _ => (0, "10.0.0.1"%string))
              (fun _ _ => (-2, ""%string)) 1%nat world1) as (a & H1 & _ & H2).
  exists a. split; [exact H1 |]. apply H2. cbn. lia.
Defined.


Lemma destroyed_never_hears_witness :
  match run [ACreate 0%nat; AWrite 0 3%nat None 0]
          (set_streams (delete 1%nat (streams world2)) world2) with
  | Some (_, w1) =>
      exists w2,
        complete 2%nat 0 w1 = Some (tt, w2) /\
        emitted w1 w2 = [(2%nat, WriteEvent)]
  | None => False
  end.
Proof.
  destruct (run _ _) as [[[] w1] |] eqn:E.
  - destruct (destroyed_never_hears 2%nat 1%nat
                (Uv.uv_write 1%nat [Uv.mk_buf (Some 7%nat) 4])
                [ACreate 0%nat; AWrite 0 3%nat None 0] 0
                (set_streams (delete 1%nat (streams world2)) world2) w1)
      as (w2 & Hc & He & _).
    + apply (bool_decide_unpack _). vm_compute. reflexivity.
    + by eexists.
    + by exists 0%nat.
    + cbn. lia.
    + reflexivity.
    + apply (bool_decide_unpack _). vm_compute. reflexivity.
    + exact E.
    + exists w2. split; [exact Hc | exact He].
  - vm_compute in E. discriminate E.
Defined.
